(** * ClauseWeaver: the mother-edit client mirror and the overlay engine

    A shallow embedding of the TypeScript client of ClauseWeaver
    ([frontend/src/types.ts], [api.ts], [hooks/useTree.ts], [App.tsx]) and
    of the overlay graph engine the client talks to.

    Conventions of the embedding.
    - A node identity ([number] in the source, always an integer sent by
      the server) is a [Z].
    - [number | null] is [option Z]; [None] is [null].  A lookup in a
      [Map<number, number | null>] therefore has type [option (option Z)]:
      the outer [None] is JavaScript's [undefined].
    - A JavaScript [Map] is a [gmap], a [Set] a [gset].  [Map.forEach]
      visits the entries in insertion order, [map_fold] in the order of
      the map's representation; every function below that iterates builds
      a set, or lists that are only read as sets, so that order is not
      observable in any statement of this file.
    - A [while] loop is a function with fuel that returns [None] when the
      fuel runs out; each loop comes with a bound on the fuel it needs. *)

From Stdlib Require Import ZArith String Ascii DecimalString DecimalZ Lia.
From stdpp Require Import base option gmap sets list strings.
From stdpp Require Import sorting.

Open Scope Z_scope.
Set Warnings "-register-all,-clear-no-such-hyp".

(** ** [frontend/src/types.ts] *)

Module Types.

Record RelatedClauseDTO := {
  rel_id : Z;
  rel_typ : option string;
  rel_rela : option string;
  rel_code : option string;
}.

Record ClauseNodeDTO := {
  id : Z;
  slotsStart : Z;
  slotsEnd : Z;
  slotCount : Z;
  label : string;
  containerId : string;
  inScope : bool;
  kind : string;
  draggable : bool;
  typ : option string;
  rela : option string;
  code : option string;
  txt : option string;
  domain : option string;
  instruction : option string;
  originalMother : option Z;
  coreFunctions : list string;
  children : list RelatedClauseDTO;
  reference : string;
}.

(** [type EdgeSource = "original" | "user"] *)
Inductive EdgeSource := original | user.

Record EdgeDTO := {
  from : Z;
  to : option Z;
  source : EdgeSource;
}.

Record DropTargets := {
  nodeTargets : gset Z;
  allowRoot : bool;
}.

#[global] Instance EdgeSource_eq_dec : EqDecision EdgeSource.
Proof. solve_decision. Defined.

End Types.

(** [TreeResponseDTO] of [types.ts], in a name space of its own: its
    fields share their names with state cells of the hook. *)
Module TreeResponse.
Import Types.

Record TreeResponseDTO := {
  nodes : list ClauseNodeDTO;
  edges : list EdgeDTO;
  scope : option string;
  version : string;
}.

End TreeResponse.

(** ** The fragment of JavaScript the sources rely on *)

Module Js.

(** JSON values; of the numbers only the integers are represented,
    which is all the backend puts into its payloads. *)
Inductive JsValue :=
| JNull
| JBool (b : bool)
| JNumber (z : Z)
| JString (s : string)
| JArray (items : list JsValue)
| JObject (fields : list (string * JsValue)).

Inductive ErrorClass := Error | SyntaxError | TypeError.

(** A thrown value: an instance of [Error] (or of a subclass) with its
    message, or any other value. *)
Inductive Exn :=
| ErrorObject (cls : ErrorClass) (message : string)
| Thrown (v : JsValue).

Inductive Completion (A : Type) :=
| Return (a : A)
| Throw (e : Exn).
Arguments Return {A} a.
Arguments Throw {A} e.

(** Code that reads and writes a state [S] and may throw; what was
    written before a throw stays written. *)
Definition M (S A : Type) : Type := S -> Completion A * S.

Definition ret {S A} (a : A) : M S A := fun s => (Return a, s).
Definition throw {S A} (e : Exn) : M S A := fun s => (Throw e, s).
Definition bind {S A B} (m : M S A) (k : A -> M S B) : M S B :=
  fun s => match m s with
           | (Return a, s') => k a s'
           | (Throw e, s') => (Throw e, s')
           end.
Definition tryCatch {S A} (body : M S A) (handler : Exn -> M S A) : M S A :=
  fun s => match body s with
           | (Return a, s') => (Return a, s')
           | (Throw e, s') => handler e s'
           end.
(** [try { body } finally { cleanup }]: a throw of [cleanup] replaces
    the completion of [body]. *)
Definition tryFinally {S A} (body : M S A) (cleanup : M S unit) : M S A :=
  fun s => match body s with
           | (c, s') => match cleanup s' with
                        | (Return _, s'') => (c, s'')
                        | (Throw e, s'') => (Throw e, s'')
                        end
           end.
Definition modify {S} (f : S -> S) : M S unit := fun s => (Return tt, f s).
Definition gets {S A} (f : S -> A) : M S A := fun s => (Return (f s), s).
Definition liftCompletion {S A} (c : Completion A) : M S A := fun s => (c, s).

(** [err instanceof Error ? err.message : fallback] *)
Definition messageOr (fallback : string) (err : Exn) : string :=
  match err with
  | ErrorObject _ message => message
  | Thrown _ => fallback
  end.

(** [String(n)] and [Number(s)] on the integers in decimal notation.
    [Number] yields [None] for [NaN]; strings in other notations
    (blanks, a plus sign, fractions, exponents, hexadecimal) are outside
    the fragment and are read as [NaN] too. *)
Definition stringOfNumber (n : Z) : string :=
  NilZero.string_of_int (Z.to_int n).

Definition Number (s : string) : option Z :=
  match s with
  | EmptyString => Some 0
  | _ => Z.of_int <$> NilZero.int_of_string s
  end.

(** [String(v)], as [new Error(v)] applies it to its argument. *)
Fixpoint toString (v : JsValue) : string :=
  match v with
  | JNull => "null"
  | JBool true => "true"
  | JBool false => "false"
  | JNumber z => stringOfNumber z
  | JString s => s
  | JArray items =>
      (fix join (l : list JsValue) : string :=
         match l with
         | [] => ""
         | x :: rest =>
             let sx := match x with JNull => "" | _ => toString x end in
             match rest with
             | [] => sx
             | _ => sx +:+ "," +:+ join rest
             end
         end) items
  | JObject _ => "[object Object]"
  end.

(** [v.name]; [None] in the result is [undefined], and reading a
    property of [null] throws. *)
Definition getProp (v : JsValue) (name : string) : Completion (option JsValue) :=
  match v with
  | JNull => Throw (ErrorObject TypeError "Cannot read properties of null")
  | JObject fields => Return (snd <$> List.find (fun kv => String.eqb (fst kv) name) (rev fields))
  | _ => Return None
  end.

(** [a ?? b] *)
Definition coalesce (a b : option JsValue) : option JsValue :=
  match a with
  | None | Some JNull => b
  | _ => a
  end.

(** [new Error(v)] *)
Definition newError (v : option JsValue) : Exn :=
  ErrorObject Error (match v with None => "" | Some v => toString v end).

(** [s || fallback] on strings: the empty string is the only falsy one. *)
Definition orElse (s fallback : string) : string :=
  match s with
  | EmptyString => fallback
  | _ => s
  end.

(** [s.startsWith(p)] and [s.replace(p, r)] for a string pattern: the
    first occurrence is replaced. *)
Definition startsWith (s p : string) : bool := String.prefix p s.

Fixpoint replace (s p r : string) : string :=
  if String.prefix p s then r +:+ String.substring (String.length p) (String.length s - String.length p) s
  else match s with
       | EmptyString => s
       | String c s' => String c (replace s' p r)
       end.

End Js.

Module JsNotations.
Notation "'let!' x ':=' y 'in' z" := (Js.bind y (fun x => z))
  (at level 10, x name, y at level 100, z at level 200, only parsing).
End JsNotations.

(** ** [frontend/src/api.ts] *)

Module Api.
Import Types Js JsNotations.

(** The outcome of a [fetch] that resolved: the status and the body,
    which [response.text()] and [response.json()] read. *)
Record Response := {
  ok : bool;
  body : string;
}.

(** The requests the client sends. *)
Inductive Request :=
| GetTree (scope : option string)
| PostReparent (child newMother : Z)
| PostRootify (child : Z)
| PostUndo
| PostRedo
| PostShutdown.

(** [{ edge: EdgeDTO }] *)
Record EdgeEnvelope := { edge : EdgeDTO }.

Section WithRuntime.
(** [JSON.parse]; a malformed text makes it throw. *)
Variable JSON_parse : string -> Completion JsValue.

Section HandleResponse.
Context {T : Type}.
(** [response.json()] read at the type [T] the caller casts it to. *)
Variable json_as : string -> Completion T.

Definition handleResponse {S} (response : Response) : M S T :=
  if ok response then liftCompletion (json_as (body response))
  else
    let text := body response in
    tryCatch
      (let! data := liftCompletion (JSON_parse text) in
       let! reason := liftCompletion (getProp data "reason") in
       throw (newError
                (coalesce (coalesce reason (Some (JString text)))
                          (Some (JString "UNKNOWN_ERROR")))))
      (fun _ => throw (ErrorObject Error (orElse text "Request failed"))).
End HandleResponse.

Section Calls.
Context {S : Type}.
Variable fetch : Request -> M S Response.
Variable json_as_edge : string -> Completion EdgeEnvelope.

Definition reparent (child newMother : Z) : M S EdgeDTO :=
  let! res := fetch (PostReparent child newMother) in
  let! data := handleResponse json_as_edge res in
  ret (edge data).

Definition rootify (child : Z) : M S EdgeDTO :=
  let! res := fetch (PostRootify child) in
  let! data := handleResponse json_as_edge res in
  ret (edge data).

Definition undo : M S EdgeDTO :=
  let! res := fetch PostUndo in
  let! data := handleResponse json_as_edge res in
  ret (edge data).

Definition redo : M S EdgeDTO :=
  let! res := fetch PostRedo in
  let! data := handleResponse json_as_edge res in
  ret (edge data).
End Calls.
End WithRuntime.

(** [{ ok: boolean; message?: string }], the reply to a shutdown. *)
Record ShutdownReply := {
  reply_ok : bool;
  reply_message : option string;
}.

Section TreeAndShutdown.
Variable JSON_parse : string -> Completion JsValue.
Context {S : Type}.
Variable fetch : Request -> M S Response.
Variable json_as_tree : string -> Completion TreeResponse.TreeResponseDTO.
Variable json_as_reply : string -> Completion ShutdownReply.

(** [scope ? `?scope=${encodeURIComponent(scope)}` : ""]: an absent or
    empty scope sends no parameter; [GetTree] carries the scope that is
    sent, before its encoding for the address. *)
Definition fetchTree (scope : option string) : M S TreeResponse.TreeResponseDTO :=
  let params :=
    match scope with
    | None | Some EmptyString => None
    | Some scope => Some scope
    end in
  let! res := fetch (GetTree params) in
  handleResponse JSON_parse json_as_tree res.

Definition shutdown : M S unit :=
  let! res := fetch PostShutdown in
  let! _ := handleResponse JSON_parse json_as_reply res in
  ret tt.
End TreeAndShutdown.

End Api.

(** ** [frontend/src/hooks/useTree.ts] *)

Module UseTree.
Import Types Js JsNotations Api.

(** [mothers.get(k) ?? null] *)
Definition get_or_null (mothers : gmap Z (option Z)) (k : Z) : option Z :=
  default None (mothers !! k).

Definition buildEdgeMap (edges : list EdgeDTO) : gmap Z (option Z) :=
  foldl (fun map edge => <[from edge := to edge]> map) ∅ edges.

(** One callback of [mothers.forEach] in [buildChildrenMap]: a child
    without mother is skipped; otherwise the mother's list is created
    when missing and the child is pushed onto it. *)
Definition addChild (child : Z) (mother : option Z)
    (children : gmap Z (list Z)) : gmap Z (list Z) :=
  match mother with
  | None => children
  | Some mother =>
      let children1 :=
        if decide (is_Some (children !! mother)) then children
        else <[mother := []]> children in
      <[mother := default [] (children1 !! mother) ++ [child]]> children1
  end.

Definition buildChildrenMap (mothers : gmap Z (option Z)) : gmap Z (list Z) :=
  map_fold addChild ∅ mothers.

(** The [for (const child of children)] loop of [collectDescendants];
    the stack is a list whose head is the last element of the array,
    so [push] is a cons and [pop] takes the head. *)
Definition visitChild (acc : gset Z * list Z) (child : Z) : gset Z * list Z :=
  if decide (child ∈ acc.1) then acc
  else ({[child]} ∪ acc.1, child :: acc.2).

Definition visitChildren (children : list Z) (visited : gset Z)
    (stack : list Z) : gset Z * list Z :=
  foldl visitChild (visited, stack) children.

(** The [while (stack.length > 0)] loop. *)
Fixpoint collectLoop (fuel : nat) (childrenMap : gmap Z (list Z))
    (visited : gset Z) (stack : list Z) : option (gset Z) :=
  match stack with
  | [] => Some visited
  | current :: rest =>
      match fuel with
      | O => None
      | S fuel' =>
          let children := default [] (childrenMap !! current) in
          let vs := visitChildren children visited rest in
          collectLoop fuel' childrenMap vs.1 vs.2
      end
  end.

(** Every node that occurs in some children list. *)
Definition allChildren (childrenMap : gmap Z (list Z)) : gset Z :=
  map_fold (fun _ (l : list Z) (acc : gset Z) => list_to_set l ∪ acc) ∅ childrenMap.

(** Iterations of the [while] loop: the root, then one per pushed node. *)
Definition collectFuel (childrenMap : gmap Z (list Z)) : nat :=
  S (size (allChildren childrenMap)).

Definition collectDescendants (root : Z) (childrenMap : gmap Z (list Z)) : gset Z :=
  default ∅ (collectLoop (collectFuel childrenMap) childrenMap ∅ [root]).

(** [new Map(nodes.map((node) => [node.id, node]))]: a later node
    replaces an earlier one of the same id. *)
Definition indexNodes (nodes : list ClauseNodeDTO) : gmap Z ClauseNodeDTO :=
  foldl (fun map node => <[id node := node]> map) ∅ nodes.

(** The [while] loop of [computeDepth] in [buildRenderTree]. *)
Fixpoint depthLoop (fuel : nat) (mothers : gmap Z (option Z))
    (nodesById : gmap Z ClauseNodeDTO) (depth : nat) (current : option Z)
    (seen : gset Z) : option nat :=
  match current with
  | None => Some depth
  | Some cur =>
      if bool_decide (is_Some (nodesById !! cur)) && bool_decide (cur ∉ seen) then
        match fuel with
        | O => None
        | S fuel' =>
            depthLoop fuel' mothers nodesById (S depth)
              (get_or_null mothers cur) ({[cur]} ∪ seen)
        end
      else Some depth
  end.

Definition computeDepthFuel (fuel : nat) (mothers : gmap Z (option Z))
    (nodesById : gmap Z ClauseNodeDTO) (id : Z) : option nat :=
  depthLoop fuel mothers nodesById 0%nat (get_or_null mothers id) ∅.

Definition computeDepth (mothers : gmap Z (option Z))
    (nodesById : gmap Z ClauseNodeDTO) (id : Z) : nat :=
  default 0%nat (computeDepthFuel (size nodesById) mothers nodesById id).

Record RenderNode := {
  node : ClauseNodeDTO;
  depth : nat;
  mother : option Z;
  isEdited : bool;
}.

Definition buildRenderTree (nodes : list ClauseNodeDTO)
    (mothers : gmap Z (option Z)) (edited : gset Z) : list RenderNode :=
  let nodesById := indexNodes nodes in
  map (fun node =>
         {| node := node;
            depth := computeDepth mothers nodesById (id node);
            mother := get_or_null mothers (id node);
            isEdited := bool_decide (id node ∈ edited) |}) nodes.

(** The state cells of the [useTree] hook. *)
Record TreeState := {
  loading : bool;
  mutating : bool;
  error : option string;
  nodes : list ClauseNodeDTO;
  mothers : gmap Z (option Z);
  edited : gset Z;
}.

Definition nodesById (st : TreeState) : gmap Z ClauseNodeDTO :=
  indexNodes (nodes st).

Definition setMothers (f : gmap Z (option Z) -> gmap Z (option Z))
    (st : TreeState) : TreeState :=
  {| loading := loading st; mutating := mutating st; error := error st;
     nodes := nodes st; mothers := f (mothers st); edited := edited st |}.

Definition setEdited (f : gset Z -> gset Z) (st : TreeState) : TreeState :=
  {| loading := loading st; mutating := mutating st; error := error st;
     nodes := nodes st; mothers := mothers st; edited := f (edited st) |}.

Definition setError (e : option string) (st : TreeState) : TreeState :=
  {| loading := loading st; mutating := mutating st; error := e;
     nodes := nodes st; mothers := mothers st; edited := edited st |}.

Definition setMutating (b : bool) (st : TreeState) : TreeState :=
  {| loading := loading st; mutating := b; error := error st;
     nodes := nodes st; mothers := mothers st; edited := edited st |}.

Definition applyEdgeUpdate (edge : EdgeDTO) (st : TreeState) : TreeState :=
  setEdited (fun prev =>
               match source edge with
               | user => {[from edge]} ∪ prev
               | original => prev ∖ {[from edge]}
               end)
    (setMothers (fun prev => <[from edge := to edge]> prev) st).

(** One callback of [nodesById.forEach] in [computeDropTargets]. *)
Definition addTarget (childId : Z) (forbidden : gset Z) (candidateId : Z)
    (candidate : ClauseNodeDTO) (targets : gset Z) : gset Z :=
  if decide (candidateId ∈ forbidden) then targets
  else if negb (draggable candidate) then targets
  else if candidateId >=? childId then targets
  else {[candidateId]} ∪ targets.

Definition computeDropTargets (st : TreeState) (childId : Z) : DropTargets :=
  match nodesById st !! childId with
  | None => {| nodeTargets := ∅; allowRoot := false |}
  | Some _ =>
      let childrenMap := buildChildrenMap (mothers st) in
      let forbidden := {[childId]} ∪ collectDescendants childId childrenMap in
      {| nodeTargets := map_fold (addTarget childId forbidden) ∅ (nodesById st);
         allowRoot := true |}
  end.

(** What a run of the hook's callbacks acts on: the state cells, the
    requests sent so far (oldest first) and the timers set. *)
Record World := {
  tree : TreeState;
  sent : list Request;
  timers : list (Z * (TreeState -> TreeState));
}.

Definition updateTree (f : TreeState -> TreeState) (w : World) : World :=
  {| tree := f (tree w); sent := sent w; timers := timers w |}.

Definition setTimeout (callback : TreeState -> TreeState) (delay : Z) : M World unit :=
  modify (fun w => {| tree := tree w; sent := sent w;
                      timers := timers w ++ [(delay, callback)] |}).

Definition REFETCH_DELAY : Z := 150.

Section Hook.
(** The network and the backend: the outcome of a [fetch], given the
    requests that were sent before it. *)
Variable server : list Request -> Request -> Completion Response.
Variable JSON_parse : string -> Completion JsValue.
Variable json_as_edge : string -> Completion EdgeEnvelope.

Definition fetch (req : Request) : M World Response :=
  fun w => (server (sent w) req,
            {| tree := tree w; sent := sent w ++ [req]; timers := timers w |}).

Definition handleMutation (mutator : M World EdgeDTO) : M World unit :=
  let! _ := modify (updateTree (setMutating true)) in
  tryFinally
    (tryCatch
       (let! edge := mutator in
        let! _ := modify (updateTree (applyEdgeUpdate edge)) in
        modify (updateTree (setError None)))
       (fun err =>
          let message := messageOr "편집에 실패했습니다." err in
          let! _ := modify (updateTree (setError (Some message))) in
          throw err))
    (setTimeout (setMutating false) REFETCH_DELAY).

Definition reparentNode (child newMother : Z) : M World unit :=
  handleMutation (reparent JSON_parse fetch json_as_edge child newMother).

Definition rootifyNode (child : Z) : M World unit :=
  handleMutation (rootify JSON_parse fetch json_as_edge child).

Definition undoLast : M World unit :=
  handleMutation (undo JSON_parse fetch json_as_edge).

Definition redoLast : M World unit :=
  handleMutation (redo JSON_parse fetch json_as_edge).

Definition clearError : M World unit := modify (updateTree (setError None)).

Definition reportError (message : string) : M World unit :=
  modify (updateTree (setError (Some message))).
End Hook.

(** The cells of the hook before the first refresh, as [useState] sets
    them up. *)
Definition initialTree : TreeState :=
  {| loading := false; mutating := false; error := None;
     nodes := []; mothers := ∅; edited := ∅ |}.

Definition setNodes (v : list ClauseNodeDTO) (st : TreeState) : TreeState :=
  {| loading := loading st; mutating := mutating st; error := error st;
     nodes := v; mothers := mothers st; edited := edited st |}.

Definition setLoading (b : bool) (st : TreeState) : TreeState :=
  {| loading := b; mutating := mutating st; error := error st;
     nodes := nodes st; mothers := mothers st; edited := edited st |}.

(** [[...nodes].sort((a, b) => a.slotsStart - b.slotsStart)].  The sort
    of an array is stable, and the stable sort by a key is unique; it is
    computed here by insertion, a node going in front of the first node
    whose key is not smaller. *)
Fixpoint insertBySlot (x : ClauseNodeDTO) (l : list ClauseNodeDTO)
    : list ClauseNodeDTO :=
  match l with
  | [] => [x]
  | y :: l' =>
      if slotsStart x <=? slotsStart y then x :: l
      else y :: insertBySlot x l'
  end.

Definition sortBySlot (l : list ClauseNodeDTO) : list ClauseNodeDTO :=
  foldr insertBySlot [] l.

(** [new Set(edges.filter((edge) => edge.source === "user").map((edge) => edge.from))] *)
Definition userEdited (edges : list EdgeDTO) : gset Z :=
  list_to_set (from <$> filter (fun edge => source edge = user) edges).

Section Refresh.
Variable server : list Request -> Request -> Completion Response.
Variable JSON_parse : string -> Completion JsValue.
Variable json_as_tree : string -> Completion TreeResponse.TreeResponseDTO.

(** [refresh] for the scope the hook was called with. *)
Definition refresh (scope : option string) : M World unit :=
  let! _ := modify (updateTree (setLoading true)) in
  tryFinally
    (tryCatch
       (let! data := fetchTree JSON_parse (fetch server) json_as_tree scope in
        let sortedNodes := sortBySlot (TreeResponse.nodes data) in
        let! _ := modify (updateTree (setNodes sortedNodes)) in
        let! _ := modify (updateTree
                            (setMothers (fun _ => buildEdgeMap (TreeResponse.edges data)))) in
        let! _ := modify (updateTree
                            (setEdited (fun _ => userEdited (TreeResponse.edges data)))) in
        modify (updateTree (setError None)))
       (fun err =>
          let message := messageOr "데이터를 불러오지 못했습니다." err in
          modify (updateTree (setError (Some message)))))
    (modify (updateTree (setLoading false))).
End Refresh.

End UseTree.

(** ** [frontend/src/App.tsx] and the identifiers of [components/TreeView.tsx] *)

Module App.
Import Types Js JsNotations Api UseTree.

(** [UniqueIdentifier = string | number] of the drag-and-drop library. *)
Inductive UniqueIdentifier :=
| IdString (s : string)
| IdNumber (n : Z).

#[global] Instance UniqueIdentifier_eq_dec : EqDecision UniqueIdentifier.
Proof. solve_decision. Defined.

(** [event.active.id] and [event.over?.id]. *)
Record DragEvent := {
  active : UniqueIdentifier;
  over : option UniqueIdentifier;
}.

(** [`drag-${node.id}`], [`drop-${node.id}`] and the root drop zone. *)
Definition draggableId (nodeId : Z) : UniqueIdentifier :=
  IdString ("drag-" +:+ stringOfNumber nodeId).
Definition droppableId (nodeId : Z) : UniqueIdentifier :=
  IdString ("drop-" +:+ stringOfNumber nodeId).
Definition rootDropId : UniqueIdentifier := IdString "root-drop".

Definition parseDragId (id : UniqueIdentifier) : option Z :=
  match id with
  | IdNumber _ => None
  | IdString id =>
      if negb (startsWith id "drag-") then None
      else Number (replace id "drag-" "")
  end.

Definition parseDropId (id : UniqueIdentifier) : option Z :=
  match id with
  | IdNumber _ => None
  | IdString id =>
      if negb (startsWith id "drop-") then None
      else Number (replace id "drop-" "")
  end.

(** The state cells of [App] the drag handlers use.  A handler is the
    closure of the latest render, so it reads the cells as they are when
    it is called. *)
Record AppState := {
  activeDragId : option Z;
  dropTargets : option DropTargets;
  pendingAction : option string;
  selectedNodeId : option Z;
}.

Record AppWorld := {
  hook : World;
  app : AppState;
}.

Definition liftHook {A} (m : M World A) : M AppWorld A :=
  fun w => match m (hook w) with
           | (c, h) => (c, {| hook := h; app := app w |})
           end.

Definition updateApp (f : AppState -> AppState) : M AppWorld unit :=
  modify (fun w => {| hook := hook w; app := f (app w) |}).

Definition setActiveDragId (v : option Z) : M AppWorld unit :=
  updateApp (fun a => {| activeDragId := v; dropTargets := dropTargets a;
                         pendingAction := pendingAction a;
                         selectedNodeId := selectedNodeId a |}).
Definition setDropTargets (v : option DropTargets) : M AppWorld unit :=
  updateApp (fun a => {| activeDragId := activeDragId a; dropTargets := v;
                         pendingAction := pendingAction a;
                         selectedNodeId := selectedNodeId a |}).
Definition setPendingAction (v : option string) : M AppWorld unit :=
  updateApp (fun a => {| activeDragId := activeDragId a;
                         dropTargets := dropTargets a; pendingAction := v;
                         selectedNodeId := selectedNodeId a |}).
Definition setSelectedNodeId (v : option Z) : M AppWorld unit :=
  updateApp (fun a => {| activeDragId := activeDragId a;
                         dropTargets := dropTargets a;
                         pendingAction := pendingAction a;
                         selectedNodeId := v |}).

Definition resetDragState : M AppWorld unit :=
  let! _ := setActiveDragId None in
  setDropTargets None.

Section Handlers.
Variable server : list Request -> Request -> Completion Response.
Variable JSON_parse : string -> Completion JsValue.
Variable json_as_edge : string -> Completion EdgeEnvelope.

Definition handleDragStart (event : DragEvent) : M AppWorld unit :=
  match parseDragId (active event) with
  | None => ret tt
  | Some nodeId =>
      let! targets := gets (fun w => computeDropTargets (tree (hook w)) nodeId) in
      let! _ := setActiveDragId (Some nodeId) in
      let! _ := setDropTargets (Some targets) in
      let! _ := setSelectedNodeId (Some nodeId) in
      liftHook clearError
  end.

(** The body of the [try] block of [handleDrop]; a [return] in it
    completes normally and leaves the rest of the block out. *)
Definition dropOnto (childId : Z) (overId : UniqueIdentifier)
    (dropTargets : DropTargets) : M AppWorld unit :=
  if decide (overId = rootDropId) then
    if negb (allowRoot dropTargets) then
      liftHook (reportError "루트화가 허용되지 않는 노드입니다.")
    else
      let! _ := setPendingAction (Some "rootify") in
      liftHook (rootifyNode server JSON_parse json_as_edge childId)
  else
    match parseDropId overId with
    | None => liftHook (reportError "유효하지 않은 드랍 영역입니다.")
    | Some motherId =>
        if decide (motherId = childId) then
          liftHook (reportError "같은 노드에는 연결할 수 없습니다.")
        else if negb (bool_decide (motherId ∈ nodeTargets dropTargets)) then
          liftHook (reportError "허용되지 않는 대상입니다.")
        else
          let! _ := setPendingAction (Some "reparent") in
          liftHook (reparentNode server JSON_parse json_as_edge childId motherId)
    end.

Definition handleDrop (event : DragEvent) : M AppWorld unit :=
  match parseDragId (active event) with
  | None => resetDragState
  | Some childId =>
      match over event with
      | None => resetDragState
      | Some overId =>
          let! targets := gets (fun w => dropTargets (app w)) in
          match targets with
          | None => resetDragState
          | Some dropTargets =>
              tryFinally
                (tryCatch (dropOnto childId overId dropTargets)
                   (fun err =>
                      match err with
                      | ErrorObject _ message => liftHook (reportError message)
                      | Thrown _ => ret tt
                      end))
                (let! _ := setPendingAction None in resetDragState)
          end
      end
  end.
End Handlers.

Definition handleDragCancel : M AppWorld unit := resetDragState.

(** *** The selection memos of [App] *)

(** [selectedNodeId == null ? null : nodesById.get(selectedNodeId) ?? null] *)
Definition selectedNode (nodesById : gmap Z ClauseNodeDTO)
    (selectedNodeId : option Z) : option ClauseNodeDTO :=
  match selectedNodeId with
  | None => None
  | Some selected => nodesById !! selected
  end.

(** One callback of [mothers.forEach] in [selectedChildren]. *)
Definition addSelectedChild (nodesById : gmap Z ClauseNodeDTO) (selected : Z)
    (childId : Z) (mother : option Z) (children : list ClauseNodeDTO)
    : list ClauseNodeDTO :=
  if decide (mother = Some selected) then
    match nodesById !! childId with
    | Some childNode => children ++ [childNode]
    | None => children
    end
  else children.

(** Nodes of one [slotsStart] keep the order of the iteration, which is
    the order of insertion in the source and the order of the map here. *)
Definition selectedChildren (mothers : gmap Z (option Z))
    (nodesById : gmap Z ClauseNodeDTO) (selectedNodeId : option Z)
    : list ClauseNodeDTO :=
  match selectedNodeId with
  | None => []
  | Some selected =>
      sortBySlot (map_fold (addSelectedChild nodesById selected) [] mothers)
  end.

(** One callback of [mothers.forEach] for the siblings. *)
Definition addSibling (nodesById : gmap Z ClauseNodeDTO) (parentId selected : Z)
    (childId : Z) (mother : option Z) (siblings : list ClauseNodeDTO)
    : list ClauseNodeDTO :=
  if decide (mother = Some parentId /\ childId <> selected) then
    match nodesById !! childId with
    | Some node => siblings ++ [node]
    | None => siblings
    end
  else siblings.

Module Selection.
Record SelectionRelations := {
  parent : option ClauseNodeDTO;
  siblings : list ClauseNodeDTO;
  children : list ClauseNodeDTO;
  highlightParentId : option Z;
  highlightChildIds : list Z;
  highlightSiblingIds : list Z;
}.
End Selection.

Definition selectionRelations (mothers : gmap Z (option Z))
    (nodesById : gmap Z ClauseNodeDTO) (selectedNodeId : option Z)
    : Selection.SelectionRelations :=
  match selectedNodeId with
  | None =>
      {| Selection.parent := None; Selection.siblings := [];
         Selection.children := []; Selection.highlightParentId := None;
         Selection.highlightChildIds := [];
         Selection.highlightSiblingIds := [] |}
  | Some selected =>
      let parentId := get_or_null mothers selected in
      let parentNode :=
        match parentId with
        | Some parentId => nodesById !! parentId
        | None => None
        end in
      let children := selectedChildren mothers nodesById selectedNodeId in
      let siblings :=
        match parentId with
        | Some parentId =>
            sortBySlot (map_fold (addSibling nodesById parentId selected) [] mothers)
        | None => []
        end in
      {| Selection.parent := parentNode; Selection.siblings := siblings;
         Selection.children := children;
         Selection.highlightParentId := parentId;
         Selection.highlightChildIds := id <$> children;
         Selection.highlightSiblingIds := id <$> siblings |}
  end.

(** [orderedNodes.findIndex(p)]; [None] is [-1]. *)
Fixpoint findIndex {A} (p : A -> bool) (l : list A) : option nat :=
  match l with
  | [] => None
  | x :: l' => if p x then Some O else S <$> findIndex p l'
  end.

(** [for (let i = index - 1; i >= 0; i -= 1)]: the loop looks at the
    places [i - 1], ..., [0] and stops at the first node of the text type. *)
Fixpoint previousLoop (orderedNodes : list ClauseNodeDTO) (t : option string)
    (i : nat) : option ClauseNodeDTO :=
  match i with
  | O => None
  | S j =>
      match orderedNodes !! j with
      | Some candidate =>
          if decide (txt candidate = t) then Some candidate
          else previousLoop orderedNodes t j
      | None => previousLoop orderedNodes t j
      end
  end.

(** [for (let i = index + 1; i < orderedNodes.length; i += 1)], with the
    places left to look at as the fuel. *)
Fixpoint nextLoop (orderedNodes : list ClauseNodeDTO) (t : option string)
    (left : nat) (i : nat) : option ClauseNodeDTO :=
  match left with
  | O => None
  | S left' =>
      match orderedNodes !! i with
      | Some candidate =>
          if decide (txt candidate = t) then Some candidate
          else nextLoop orderedNodes t left' (S i)
      | None => None
      end
  end.

Module Neighbors.
Record SameTxtNeighbors := {
  previous : option ClauseNodeDTO;
  next : option ClauseNodeDTO;
}.
End Neighbors.

Definition sameTxtNeighbors (orderedNodes : list ClauseNodeDTO)
    (selectedNode : option ClauseNodeDTO) : Neighbors.SameTxtNeighbors :=
  match selectedNode with
  | None => {| Neighbors.previous := None; Neighbors.next := None |}
  | Some selectedNode =>
      match findIndex (fun node => bool_decide (id node = id selectedNode))
              orderedNodes with
      | None => {| Neighbors.previous := None; Neighbors.next := None |}
      | Some index =>
          {| Neighbors.previous :=
               previousLoop orderedNodes (txt selectedNode) index;
             Neighbors.next :=
               nextLoop orderedNodes (txt selectedNode)
                 (length orderedNodes - S index) (S index) |}
      end
  end.

(** *** Annotations and checklists, local to the client *)

Definition handleAnnotationChange (selectedNodeId : option Z) (value : string)
    (annotations : gmap Z string) : gmap Z string :=
  match selectedNodeId with
  | None => annotations
  | Some selected => <[selected := value]> annotations
  end.

Definition clearAnnotation (selectedNodeId : option Z)
    (annotations : gmap Z string) : gmap Z string :=
  match selectedNodeId with
  | None => annotations
  | Some selected => delete selected annotations
  end.

Definition annotationValue (selectedNodeId : option Z)
    (annotations : gmap Z string) : string :=
  match selectedNodeId with
  | None => ""
  | Some selected => default "" (annotations !! selected)
  end.





(** *** Shutdown *)

(** The cells [handleShutdown] reads and writes, beside the hook's. *)
Record ShutdownWorld := {
  shutdownHook : World;
  shutdownRequested : bool;
  shutdownNotice : option string;
}.

Definition liftShutdown {A} (m : M World A) : M ShutdownWorld A :=
  fun w => match m (shutdownHook w) with
           | (c, h) => (c, {| shutdownHook := h;
                              shutdownRequested := shutdownRequested w;
                              shutdownNotice := shutdownNotice w |})
           end.

Definition setShutdownRequested (b : bool) : M ShutdownWorld unit :=
  modify (fun w => {| shutdownHook := shutdownHook w; shutdownRequested := b;
                      shutdownNotice := shutdownNotice w |}).

Definition setShutdownNotice (v : option string) : M ShutdownWorld unit :=
  modify (fun w => {| shutdownHook := shutdownHook w;
                      shutdownRequested := shutdownRequested w;
                      shutdownNotice := v |}).

Section Shutdown.
Variable server : list Request -> Request -> Completion Response.
Variable JSON_parse : string -> Completion JsValue.
Variable json_as_reply : string -> Completion ShutdownReply.

Definition handleShutdown : M ShutdownWorld unit :=
  let! requested := gets shutdownRequested in
  if requested then ret tt
  else
    let! _ := setShutdownRequested true in
    let! _ := setShutdownNotice
                (Some "프로그램을 종료하는 중입니다. 잠시만 기다려 주세요.") in
    tryCatch
      (let! _ := liftShutdown (shutdown JSON_parse (fetch server) json_as_reply) in
       setShutdownNotice
         (Some "서버 종료 요청이 완료되었습니다. 터미널에서 종료를 확인한 뒤 창을 닫아 주세요."))
      (fun err =>
         let! _ := setShutdownRequested false in
         let! _ := setShutdownNotice None in
         match err with
         | ErrorObject _ message => liftShutdown (reportError message)
         | Thrown _ => liftShutdown (reportError "종료 요청에 실패했습니다.")
         end).
End Shutdown.

End App.

(** ** The drop zones of [frontend/src/components/TreeView.tsx] *)

Module TreeView.
Import Types UseTree App.

(** [dropTargets?.nodeTargets.has(node.id) ?? false] of a row. *)
Definition isValidTarget (dropTargets : option DropTargets) (nodeId : Z) : bool :=
  match dropTargets with
  | Some targets => bool_decide (nodeId ∈ nodeTargets targets)
  | None => false
  end.

(** [disabled: !dropTargets || !isValidTarget] of the drop zone of a row. *)
Definition rowDropDisabled (dropTargets : option DropTargets) (nodeId : Z) : bool :=
  negb (bool_decide (is_Some dropTargets)) || negb (isValidTarget dropTargets nodeId).

(** [dropTargets?.allowRoot ?? false] and [disabled: !allowRoot] of the
    root drop zone. *)
Definition rootDropDisabled (dropTargets : option DropTargets) : bool :=
  negb (match dropTargets with
        | Some targets => allowRoot targets
        | None => false
        end).

(** [disabled: mutating || !node.draggable] of the drag handle of a row. *)
Definition rowDragDisabled (mutating : bool) (node : ClauseNodeDTO) : bool :=
  mutating || negb (draggable node).

End TreeView.

(** ** The overlay graph engine

    The engine runs in the backend, which is not among the sources; the
    client only sees it through [api.ts].  Its definitions follow the
    specification of the engine, sections 3, 4 and 6. *)

Module Engine.

(** Modelled from the spec: a node of the Corpus Index (the backend's
    storage is missing), with its base mother, its container and the
    draggable mark. *)
Record Node := {
  originalMother : option Z;
  container : string;
  draggable : bool;
}.

(** Modelled from the spec: the two switches of the Validation Engine
    (backend configuration is missing): whether a reparent may cross
    containers, and the optional depth bound. *)
Record Config := {
  allowCrossScope : bool;
  maxDepth : option nat;
}.

(** Modelled from the spec: an entry of the Mutation Log (missing
    backend).  A state of the overlay for one child is [None] when the
    child has no overlay entry and [Some target] when it has one, the
    target [None] being the rootified sentinel. *)
Record LogEntry := {
  child : Z;
  previous : option (option Z);
  next : option (option Z);
  seq : nat;
}.

(** Modelled from the spec: the engine's state (missing backend): the
    immutable Corpus Index, the Overlay Store with its version counter,
    and the two stacks of the Mutation Log, most recent entry first. *)
Record State := {
  corpus : gmap Z Node;
  config : Config;
  overlay : gmap Z (option Z);
  version : nat;
  history : list LogEntry;
  future : list LogEntry;
}.

(** Modelled from the spec: the rejection reasons and no-op signals of
    section 7 (missing backend). *)
Inductive Signal :=
| NotFound | SelfParent | CycleDetected | ScopeViolation | DepthExceeded
| NotDraggable | EmptyHistory | EmptyFuture | Busy.

(** Modelled from the spec: the verdict of [validate] (missing backend). *)
Inductive Verdict :=
| Accept
| Reject (reason : Signal).

(** Modelled from the spec: a mutation request, [Reparent(child,
    newMother)] or [Rootify(child)] (missing backend). *)
Inductive Mutation :=
| Reparent (child newMother : Z)
| Rootify (child : Z).

(** Modelled from the spec: what a mutation, an undo or a redo answers
    (missing backend): the single changed edge, or a signal. *)
Inductive Answer :=
| Changed (edge : Types.EdgeDTO)
| Refused (signal : Signal).

(** Modelled from the spec: the Effective-Edge Resolver of section 4.1
    (missing backend); the outer [None] is the [NotFound] error. *)
Definition resolve (st : State) (nodeId : Z) : option (option Z) :=
  match corpus st !! nodeId with
  | None => None
  | Some nd =>
      Some (match overlay st !! nodeId with
            | Some target => target
            | None => originalMother nd
            end)
  end.

(** Modelled from the spec: the effective edges of the whole corpus as
    a mother map (missing backend). *)
Definition effectiveMap (st : State) : gmap Z (option Z) :=
  map_imap (fun nodeId (_ : Node) => resolve st nodeId) (corpus st).


(** Modelled from the spec: the ancestor walk of rule 3 (missing
    backend): follow [resolve] upward from [current], at most [fuel]
    nodes, and report whether [target] is met. *)
Fixpoint encounters (fuel : nat) (st : State) (current target : Z) : bool :=
  match fuel with
  | O => false
  | S fuel' =>
      if decide (current = target) then true
      else match resolve st current with
           | Some (Some m) => encounters fuel' st m target
           | _ => false
           end
  end.

(** Modelled from the spec: the depth of a node for rule 5 (missing
    backend): the number of its ancestors, walked under the same bound. *)
Fixpoint depthOf (fuel : nat) (st : State) (nodeId : Z) : nat :=
  match fuel with
  | O => O
  | S fuel' =>
      match resolve st nodeId with
      | Some (Some m) => S (depthOf fuel' st m)
      | _ => O
      end
  end.

(** Modelled from the spec: [containerOf] of section 6 (missing backend). *)
Definition containerOf (st : State) (nodeId : Z) : option string :=
  container <$> corpus st !! nodeId.

(** Modelled from the spec: the Validation Engine of section 4.2
    (missing backend), the rules in their order, first failure wins. *)
Definition validate (st : State) (m : Mutation) : Verdict :=
  match m with
  | Reparent child proposedMother =>
      if decide (proposedMother = child) then Reject SelfParent
      else if negb (bool_decide (is_Some (corpus st !! child))
                    && bool_decide (is_Some (corpus st !! proposedMother)))
      then Reject NotFound
      else if encounters (size (corpus st)) st proposedMother child
      then Reject CycleDetected
      else if negb (allowCrossScope (config st))
              && negb (bool_decide (containerOf st child = containerOf st proposedMother))
      then Reject ScopeViolation
      else match maxDepth (config st) with
           | Some D =>
               if bool_decide (D < S (depthOf (size (corpus st)) st proposedMother))%nat
               then Reject DepthExceeded
               else Accept
           | None => Accept
           end
  | Rootify child =>
      match corpus st !! child with
      | None => Reject NotFound
      | Some nd => if draggable nd then Accept else Reject NotDraggable
      end
  end.

(** Modelled from the spec: the child a mutation is about (missing
    backend). *)
Definition childOf (m : Mutation) : Z :=
  match m with
  | Reparent child _ => child
  | Rootify child => child
  end.

(** Modelled from the spec: the overlay target a mutation asks for
    (missing backend); [None] is the rootified sentinel. *)
Definition targetOf (m : Mutation) : option Z :=
  match m with
  | Reparent _ newMother => Some newMother
  | Rootify _ => None
  end.

(** Modelled from the spec: the changed edge of a response, section 6
    (missing backend): the effective mother, tagged [user] exactly when
    the child has an overlay entry. *)
Definition edgeOf (st : State) (child : Z) : Types.EdgeDTO :=
  {| Types.from := child;
     Types.to := default None (resolve st child);
     Types.source := if decide (is_Some (overlay st !! child))
                     then Types.user else Types.original |}.

(** Modelled from the spec: whether a node falls within a scope
    descriptor, section 4.5 (missing backend): the descriptor is a
    prefix of the node's container. *)
Definition withinScope (st : State) (scope : string) (nodeId : Z) : bool :=
  match containerOf st nodeId with
  | Some c => String.prefix scope c
  | None => false
  end.

(** Modelled from the spec: [query] of the Scope Query Engine, section
    4.5 (missing backend): the nodes of the corpus that fall within the
    scope and, for each of them, its effective edge, tagged [user]
    exactly when the node has an overlay entry. *)
Definition query (st : State) (scope : string) : list Z * list Types.EdgeDTO :=
  let found := filter (fun nodeId => withinScope st scope nodeId = true)
                 (elements (dom (corpus st))) in
  (found, edgeOf st <$> found).

(** Modelled from the spec: putting an overlay state back for one child
    (missing backend): no entry means the entry is removed. *)
Definition restore (child : Z) (state : option (option Z))
    (ov : gmap Z (option Z)) : gmap Z (option Z) :=
  match state with
  | None => delete child ov
  | Some target => <[child := target]> ov
  end.

(** Modelled from the spec: [apply] of the Overlay Store, section 4.3,
    together with [commit] of the Mutation Log, section 4.4, as one
    transaction (missing backend). *)
Definition apply (st : State) (child : Z) (newMother : option Z) : State :=
  {| corpus := corpus st;
     config := config st;
     overlay := <[child := newMother]> (overlay st);
     version := S (version st);
     history := {| child := child;
                   previous := overlay st !! child;
                   next := Some newMother;
                   seq := S (version st) |} :: history st;
     future := [] |}.

(** Modelled from the spec: [Reparent] and [Rootify] of section 6
    (missing backend): validate, and apply on acceptance. *)
Definition mutate (st : State) (m : Mutation) : State * Answer :=
  match validate st m with
  | Accept =>
      let st' := apply st (childOf m) (targetOf m) in
      (st', Changed (edgeOf st' (childOf m)))
  | Reject reason => (st, Refused reason)
  end.

(** Modelled from the spec: [undo] of section 4.4 (missing backend). *)
Definition undo (st : State) : State * Answer :=
  match history st with
  | [] => (st, Refused EmptyHistory)
  | entry :: rest =>
      let st' := {| corpus := corpus st;
                    config := config st;
                    overlay := restore (child entry) (previous entry) (overlay st);
                    version := S (version st);
                    history := rest;
                    future := entry :: future st |} in
      (st', Changed (edgeOf st' (child entry)))
  end.

(** Modelled from the spec: [redo] of section 4.4 (missing backend). *)
Definition redo (st : State) : State * Answer :=
  match future st with
  | [] => (st, Refused EmptyFuture)
  | entry :: rest =>
      let st' := {| corpus := corpus st;
                    config := config st;
                    overlay := restore (child entry) (next entry) (overlay st);
                    version := S (version st);
                    history := entry :: history st;
                    future := rest |} in
      (st', Changed (edgeOf st' (child entry)))
  end.

#[global] Instance Signal_eq_dec : EqDecision Signal.
Proof. solve_decision. Defined.

End Engine.

(** ** Sample data

    A scope of four clauses, [2] and [3] under [1] and [4] under [2],
    in two verses, and the corpus of the concrete scenario of the
    specification, where all four share one container. *)

Module Sample.
Import Types Js Api UseTree App.

Definition clause (i : Z) (verse : string) : ClauseNodeDTO :=
  {| id := i; slotsStart := i; slotsEnd := i; slotCount := 1; label := "";
     containerId := verse; inScope := true; kind := "clause";
     draggable := true; typ := None; rela := None; code := None;
     txt := None; domain := None; instruction := None;
     originalMother := None; coreFunctions := []; children := [];
     reference := "" |}.

Definition baseMothers : gmap Z (option Z) :=
  <[1 := None]> (<[2 := Some 1]> (<[3 := Some 1]> (<[4 := Some 2]> ∅))).

Definition scope : TreeState :=
  {| loading := false; mutating := false; error := None;
     nodes := [clause 1 "Genesis.1.1"; clause 2 "Genesis.1.1";
               clause 3 "Genesis.1.2"; clause 4 "Genesis.1.2"];
     mothers := baseMothers;
     edited := ∅ |}.

Definition world : World := {| tree := scope; sent := []; timers := [] |}.

Definition idle : AppState :=
  {| activeDragId := None; dropTargets := None; pendingAction := None;
     selectedNodeId := None |}.

(** A backend that refuses whatever it is asked. *)
Definition refusing (_ : list Request) (_ : Request) : Completion Response :=
  Return {| ok := false; body := "CycleDetected" |}.

Definition noJson (_ : string) : Completion JsValue :=
  Throw (ErrorObject SyntaxError "Unexpected token").

Definition noEdge (_ : string) : Completion EdgeEnvelope :=
  Throw (ErrorObject SyntaxError "Unexpected token").

Definition corpusNode (m : option Z) : Engine.Node :=
  {| Engine.originalMother := m; Engine.container := "Gen.1";
     Engine.draggable := true |}.

Definition engine : Engine.State :=
  {| Engine.corpus :=
       <[1 := corpusNode None]>
         (<[2 := corpusNode (Some 1)]>
            (<[3 := corpusNode (Some 1)]> (<[4 := corpusNode (Some 2)]> ∅)));
     Engine.config := {| Engine.allowCrossScope := false; Engine.maxDepth := None |};
     Engine.overlay := ∅;
     Engine.version := 0;
     Engine.history := [];
     Engine.future := [] |}.

(** The tree of the sample scope as the backend sends it, the nodes in
    another order, and a backend that serves it. *)
Definition treeData : TreeResponse.TreeResponseDTO :=
  {| TreeResponse.nodes :=
       [clause 3 "Genesis.1.2"; clause 1 "Genesis.1.1";
        clause 4 "Genesis.1.2"; clause 2 "Genesis.1.1"];
     TreeResponse.edges :=
       [{| from := 1; to := None; source := original |};
        {| from := 2; to := Some 1; source := original |};
        {| from := 3; to := Some 1; source := original |};
        {| from := 4; to := Some 2; source := user |}];
     TreeResponse.scope := Some "Genesis.1";
     TreeResponse.version := "1" |}.

Definition serving (_ : list Request) (_ : Request) : Completion Response :=
  Return {| ok := true; body := "tree" |}.

Definition asTree (_ : string) : Completion TreeResponse.TreeResponseDTO :=
  Return treeData.

(** What the backend answers to [GetTree] for a scope in a state of the
    engine: the nodes and edges of [Engine.query]. *)
Definition reply (st : Engine.State) (scope : string)
    : TreeResponse.TreeResponseDTO :=
  {| TreeResponse.nodes :=
       (fun n => clause n (default "" (Engine.containerOf st n)))
         <$> (Engine.query st scope).1;
     TreeResponse.edges := (Engine.query st scope).2;
     TreeResponse.scope := Some scope;
     TreeResponse.version := "1" |}.

(** The mirror of a hook that has just been mounted and has loaded that
    scope with [refresh]. *)
Definition loaded (st : Engine.State) (scope : string) : TreeState :=
  tree (refresh serving noJson (fun _ => Return (reply st scope)) (Some scope)
          {| tree := initialTree; sent := []; timers := [] |}).2.




End Sample.


(** ** Notions of the statements and of their proofs *)

Import Types Js JsNotations Api UseTree App.

(** [Descendant mothers c a]: following the mother map upward from [c],
    in one step or more, arrives at [a]. *)
Inductive Descendant (mothers : gmap Z (option Z)) : Z -> Z -> Prop :=
| desc_child c a :
    mothers !! c = Some (Some a) -> Descendant mothers c a
| desc_step c b a :
    mothers !! c = Some (Some b) -> Descendant mothers b a ->
    Descendant mothers c a.

(** A call of [api.ts] sends its request and writes no state cell. *)
Definition callOnly {A} (m : M World A) : Prop :=
  forall w, tree (m w).2 = tree w.

(** The measure of the loop of [collectDescendants]: the nodes of
    [universe] not yet visited, plus the height of the stack; every push
    marks one more node of the universe. *)
Definition pending (universe visited : gset Z) (stack : list Z) : nat :=
  (size (universe ∖ visited) + length stack)%nat.

(** The invariant of that loop: a node that is marked, or the root, is
    still on the stack or has all its children marked. *)
Definition expanded (mothers : gmap Z (option Z)) (root : Z)
    (visited : gset Z) (stack : list Z) : Prop :=
  forall v, v = root \/ v ∈ visited ->
    v ∈ stack \/ (forall c, mothers !! c = Some (Some v) -> c ∈ visited).

(** The nodes the walk of rule 3 passes from [x] before it meets
    [target], when it meets it within [fuel] nodes. *)
Fixpoint pathTo (st : Engine.State) (target : Z) (fuel : nat) (x : Z)
    : option (list Z) :=
  match fuel with
  | O => None
  | S fuel' =>
      if decide (x = target) then Some []
      else match Engine.resolve st x with
           | Some (Some m) => cons x <$> pathTo st target fuel' m
           | _ => None
           end
  end.

(** The secondary invariant of the data model: an effective mother
    shares the container of its child. *)
Definition contained (st : Engine.State) : Prop :=
  forall n m, Engine.resolve st n = Some (Some m) ->
    Engine.containerOf st n = Engine.containerOf st m.

(** The mirror holds the subtree of [child]: for every descendant of
    [child] under the effective mother map, the mother map of the mirror
    has the effective edge.  A mirror holds the edges of the nodes of its
    scope only, so this can fail for a descendant outside the scope. *)
Definition holdsSubtree (st : Engine.State) (ts : TreeState) (child : Z) : Prop :=
  forall n, Descendant (Engine.effectiveMap st) n child ->
    mothers ts !! n = Engine.effectiveMap st !! n.

(** The mirror is in step with the engine: each entry of its mother map
    is the effective edge of that node. *)
Definition inStep (st : Engine.State) (ts : TreeState) : Prop :=
  forall n m, mothers ts !! n = Some m -> Engine.resolve st n = Some m.

(** No node is its own ancestor: the forest invariant, on a mother map. *)
Definition acyclic (mothers : gmap Z (option Z)) : Prop :=
  forall x, ~ Descendant mothers x x.

(** Non-decreasing text order. *)
Definition slotOrder (a b : ClauseNodeDTO) : Prop :=
  slotsStart a <= slotsStart b.

(** What the hook keeps true of its cells: the node list is in text
    order, and every node marked as edited has an entry in the mothers
    map. *)
Definition mirrorInvariant (st : TreeState) : Prop :=
  StronglySorted slotOrder (nodes st) /\ edited st ⊆ dom (mothers st).

(** Membership in a concrete set, and the like, by evaluation. *)
Ltac by_evaluation := apply (bool_decide_unpack _); vm_compute; exact I.

(** * Properties *)

(** ** The children index *)

Section ChildrenIndex.
Implicit Types (mothers : gmap Z (option Z)) (children : gmap Z (list Z)).

Lemma addChild_lookup child mother children M :
  addChild child (Some mother) children !! M =
  if decide (M = mother)
  then Some (default [] (children !! mother) ++ [child])
  else children !! M.
Proof.
  unfold addChild. destruct (decide (M = mother)) as [->|Hne].
  - rewrite lookup_insert_eq. f_equal. f_equal.
    destruct (decide (is_Some (children !! mother))) as [_|Hno]; [done|].
    rewrite lookup_insert_eq.
    destruct (children !! mother) eqn:E; [|done].
    exfalso. apply Hno. eauto.
  - rewrite lookup_insert_ne by done.
    destruct (decide (is_Some (children !! mother))); [done|].
    by rewrite lookup_insert_ne.
Qed.

(** The entry of [M] in the index lists exactly the nodes whose mother
    is [M]. *)
Lemma buildChildrenMap_spec mothers c M :
  (exists l, buildChildrenMap mothers !! M = Some l /\ c ∈ l) <->
  mothers !! c = Some (Some M).
Proof.
  unfold buildChildrenMap. revert c M.
  apply (map_fold_weak_ind
           (fun children mothers => forall c M,
                (exists l, children !! M = Some l /\ c ∈ l) <->
                mothers !! c = Some (Some M))).
  - intros c M. split.
    + intros (l & Hl & _). by rewrite lookup_empty in Hl.
    + intros H. by rewrite lookup_empty in H.
  - intros i x m r Hfresh IH c M. destruct x as [mother|]; [|simpl].
    + split.
      * intros (l & Hl & Hc). rewrite addChild_lookup in Hl.
        destruct (decide (M = mother)) as [->|Hne].
        -- injection Hl as <-. apply elem_of_app in Hc as [Hc|Hc].
           ++ assert (m !! c = Some (Some mother)) as Hm.
              { apply IH. destruct (r !! mother) as [l0|] eqn:E; simpl in Hc.
                - eauto.
                - by apply elem_of_nil in Hc. }
              rewrite lookup_insert_ne; [done|]. congruence.
           ++ apply list_elem_of_singleton in Hc as ->.
              by rewrite lookup_insert_eq.
        -- assert (m !! c = Some (Some M)) as Hm by (apply IH; eauto).
           rewrite lookup_insert_ne; [done|]. congruence.
      * intros Hc. rewrite addChild_lookup.
        destruct (decide (i = c)) as [->|Hic].
        -- rewrite lookup_insert_eq in Hc. injection Hc as ->.
           rewrite decide_True by done. eexists. split; [done|].
           apply elem_of_app. right. by apply list_elem_of_singleton.
        -- rewrite lookup_insert_ne in Hc by done.
           apply IH in Hc as (l & Hl & Hc).
           destruct (decide (M = mother)) as [->|Hne].
           ++ eexists. split; [done|]. rewrite Hl. simpl.
              apply elem_of_app. by left.
           ++ eauto.
    + split.
      * intros H. apply IH in H.
        rewrite lookup_insert_ne; [done|]. congruence.
      * intros Hc. apply IH.
        destruct (decide (i = c)) as [->|Hic].
        -- by rewrite lookup_insert_eq in Hc.
        -- by rewrite lookup_insert_ne in Hc.
Qed.

Lemma children_of_lookup mothers current c :
  c ∈ default [] (buildChildrenMap mothers !! current) <->
  mothers !! c = Some (Some current).
Proof.
  rewrite <- buildChildrenMap_spec. split.
  - destruct (buildChildrenMap mothers !! current) as [l|] eqn:E; simpl.
    + eauto.
    + intros H. by apply elem_of_nil in H.
  - intros (l & -> & Hc). done.
Qed.

End ChildrenIndex.

(** C10. The children index is the exact inverse of the mother map: [c]
    is listed under [M] in [buildChildrenMap m] if and only if [m] maps
    [c] to the non-null mother [M]; a node whose mother is [null] or
    [undefined] is therefore listed under no key. *)
Theorem buildChildrenMap_inverse (m : gmap Z (option Z)) (c : Z) :
  (forall M : Z,
      (exists l, buildChildrenMap m !! M = Some l /\ c ∈ l) <->
      m !! c = Some (Some M)) /\
  (get_or_null m c = None ->
   forall M l, buildChildrenMap m !! M = Some l -> c ∉ l).
Proof.
  split.
  - intros M. apply buildChildrenMap_spec.
  - intros Hnull M l Hl Hc.
    assert (m !! c = Some (Some M)) as Hm by (apply buildChildrenMap_spec; eauto).
    unfold get_or_null in Hnull. by rewrite Hm in Hnull.
Qed.

(** ** The incremental update of the mirror *)

(** C8. Applying one edge [e] sets the mother of [from e] to [to e]
    ([null] when absent), has [from e] in the edited set exactly when the
    source is [user] (an [original] edge removes it), and leaves the mother
    and the edited mark of every other node, and the node list, as they
    were. *)
Theorem applyEdgeUpdate_frame (e : EdgeDTO) (st : TreeState) :
  mothers (applyEdgeUpdate e st) !! from e = Some (to e) /\
  (from e ∈ edited (applyEdgeUpdate e st) <-> source e = user) /\
  (source e = original -> from e ∉ edited (applyEdgeUpdate e st)) /\
  (forall n : Z, n <> from e ->
     mothers (applyEdgeUpdate e st) !! n = mothers st !! n /\
     (n ∈ edited (applyEdgeUpdate e st) <-> n ∈ edited st)) /\
  nodes (applyEdgeUpdate e st) = nodes st.
Proof.
  unfold applyEdgeUpdate, setEdited, setMothers; simpl.
  split; [apply lookup_insert_eq|].
  split; [destruct (source e); set_solver|].
  split; [intros ->; set_solver|].
  split; [|done].
  intros n Hn. split.
  - by apply lookup_insert_ne.
  - destruct (source e); set_solver.
Qed.

(** ** Failed responses *)

Section FailedResponse.
Context {T S : Type}.
Variable JSON_parse : string -> Completion JsValue.
Variable json_as : string -> Completion T.

(** Whatever the [try] block does, it ends in a throw, and the [catch]
    clause replaces what was thrown. *)
Lemma handleResponse_not_ok (response : Response) (s : S) :
  ok response = false ->
  handleResponse JSON_parse json_as response s =
  (Throw (ErrorObject Error (orElse (body response) "Request failed")), s).
Proof.
  intros Hok. unfold handleResponse. rewrite Hok.
  unfold tryCatch, bind, liftCompletion, throw.
  destruct (JSON_parse (body response)) as [data|e]; [|done].
  destruct (getProp data "reason") as [reason|e]; done.
Qed.
End FailedResponse.

(** C9. For a response that is not ok, [handleResponse] throws an [Error]
    whose message is the body text, or "Request failed" when the body is
    empty, whatever [JSON.parse] makes of the body: the error built from
    the parsed [reason] inside the [try] block is caught by the [catch]
    clause and replaced, so it never reaches the caller. *)
Theorem handleResponse_failure_message {T S : Type}
    (JSON_parse : string -> Completion JsValue)
    (json_as : string -> Completion T) (response : Response) (s : S) :
  ok response = false ->
  handleResponse JSON_parse json_as response s =
  (Throw (ErrorObject Error
            (if decide (body response = "") then "Request failed"
             else body response)), s).
Proof.
  intros Hok. rewrite handleResponse_not_ok by done.
  do 3 f_equal. unfold orElse.
  destruct (body response); [done|]. by rewrite decide_False.
Qed.

(** A body with a [reason] field: the caller still gets the raw text. *)
Lemma handleResponse_failure_message_witness :
  let parse := fun _ : string =>
    Return (JObject [("reason", JString "CycleDetected")]) in
  let response := {| ok := false; body := "conflict" |} in
  ok response = false /\
  handleResponse (T := EdgeEnvelope) (S := unit) parse
    (fun _ => Throw (ErrorObject SyntaxError "no edge")) response tt =
  (Throw (ErrorObject Error "conflict"), tt).
Proof.
  split; [reflexivity|].
  apply (handleResponse_failure_message
           (fun _ : string => Return (JObject [("reason", JString "CycleDetected")]))
           (fun _ => Throw (ErrorObject SyntaxError "no edge"))
           {| ok := false; body := "conflict" |} tt).
  reflexivity.
Defined.

(** ** Failed mutations *)

Section FailedMutation.
Variable server : list Request -> Request -> Completion Response.
Variable JSON_parse : string -> Completion JsValue.
Variable json_as_edge : string -> Completion EdgeEnvelope.

Lemma fetch_callOnly req : callOnly (fetch server req).
Proof. intros w. done. Qed.

Lemma handleResponse_callOnly res :
  callOnly (handleResponse (S := World) JSON_parse json_as_edge res).
Proof.
  intros w. unfold handleResponse, tryCatch, bind, liftCompletion, throw.
  destruct (ok res); [done|].
  destruct (JSON_parse (body res)); [|done].
  destruct (getProp _ _); done.
Qed.

Lemma request_callOnly req :
  callOnly (let! res := fetch server req in
            let! data := handleResponse JSON_parse json_as_edge res in
            ret (edge data)).
Proof.
  intros w. unfold bind at 1. unfold fetch at 1.
  destruct (server (sent w) req) as [res|e]; [|done].
  unfold bind. simpl.
  pose proof (handleResponse_callOnly res
                {| tree := tree w; sent := sent w ++ [req]; timers := timers w |}) as H.
  destruct (handleResponse _ _ _ _) as [[data|e] w']; simpl in *; done.
Qed.

Lemma reparent_callOnly child newMother :
  callOnly (reparent JSON_parse (fetch server) json_as_edge child newMother).
Proof. apply request_callOnly. Qed.
Lemma rootify_callOnly child :
  callOnly (rootify JSON_parse (fetch server) json_as_edge child).
Proof. apply request_callOnly. Qed.
Lemma undo_callOnly : callOnly (undo JSON_parse (fetch server) json_as_edge).
Proof. apply request_callOnly. Qed.
Lemma redo_callOnly : callOnly (redo JSON_parse (fetch server) json_as_edge).
Proof. apply request_callOnly. Qed.

(** A response that is not ok makes the call throw. *)
Lemma request_not_ok req w res :
  server (sent w) req = Return res -> ok res = false ->
  exists err,
    (let! res := fetch server req in
     let! data := handleResponse JSON_parse json_as_edge res in
     ret (edge data)) w =
    (Throw err, {| tree := tree w; sent := sent w ++ [req]; timers := timers w |}).
Proof.
  intros Hres Hok. unfold bind at 1. unfold fetch at 1. rewrite Hres.
  unfold bind. rewrite handleResponse_not_ok by done. eauto.
Qed.
End FailedMutation.

(** A mutator that throws and wrote no state cell: [handleMutation]
    rethrows with the error message set and nothing else changed. *)
Lemma handleMutation_throw (mutator : M World EdgeDTO) (w w1 : World) (err : Exn) :
  mutator (updateTree (setMutating true) w) = (Throw err, w1) ->
  tree w1 = tree (updateTree (setMutating true) w) ->
  exists w',
    handleMutation mutator w = (Throw err, w') /\
    mothers (tree w') = mothers (tree w) /\
    edited (tree w') = edited (tree w) /\
    nodes (tree w') = nodes (tree w) /\
    error (tree w') = Some (messageOr "편집에 실패했습니다." err).
Proof.
  intros Hthrow Htree.
  unfold handleMutation, bind, tryFinally, tryCatch, modify, throw, setTimeout.
  simpl. rewrite Hthrow. simpl. eexists. split; [reflexivity|].
  simpl. rewrite Htree. done.
Qed.

(** C7. When the mutator of [handleMutation] throws (the request of a
    reparent, rootify, undo or redo failed), [handleMutation] rethrows
    and leaves the mothers map, the edited set and the node list exactly
    as they were before the call; only the error message is set.  The
    mutator is a call of [api.ts], which sends a request and writes no
    state cell ([reparent_callOnly] and its siblings). *)
Theorem handleMutation_failure_untouched (mutator : M World EdgeDTO)
    (w w1 : World) (err : Exn) :
  callOnly mutator ->
  mutator (updateTree (setMutating true) w) = (Throw err, w1) ->
  exists w',
    handleMutation mutator w = (Throw err, w') /\
    mothers (tree w') = mothers (tree w) /\
    edited (tree w') = edited (tree w) /\
    nodes (tree w') = nodes (tree w) /\
    error (tree w') = Some (messageOr "편집에 실패했습니다." err).
Proof.
  intros Hcall Hthrow. apply handleMutation_throw with w1; [done|].
  specialize (Hcall (updateTree (setMutating true) w)).
  by rewrite Hthrow in Hcall.
Qed.

(** The four mutations of the hook against a backend that answers with
    a response that is not ok: each throws and leaves the mirror alone. *)
Lemma hook_mutations_refused
    (server : list Request -> Request -> Completion Response)
    (JSON_parse : string -> Completion JsValue)
    (json_as_edge : string -> Completion EdgeEnvelope)
    (w : World) (child newMother : Z) :
  (forall req, exists res, server (sent w) req = Return res /\ ok res = false) ->
  Forall (fun run : M World unit =>
            exists err w',
              run w = (Throw err, w') /\
              mothers (tree w') = mothers (tree w) /\
              edited (tree w') = edited (tree w))
    [reparentNode server JSON_parse json_as_edge child newMother;
     rootifyNode server JSON_parse json_as_edge child;
     undoLast server JSON_parse json_as_edge;
     redoLast server JSON_parse json_as_edge].
Proof.
  intros Hrefuse.
  assert (forall req, exists err w',
             handleMutation
               (let! res := fetch server req in
                let! data := handleResponse JSON_parse json_as_edge res in
                ret (edge data)) w = (Throw err, w') /\
             mothers (tree w') = mothers (tree w) /\
             edited (tree w') = edited (tree w)) as Hall.
  { intros req. destruct (Hrefuse req) as (res & Hres & Hok).
    destruct (request_not_ok server JSON_parse json_as_edge req
                (updateTree (setMutating true) w) res Hres Hok) as [err Herr].
    destruct (handleMutation_throw _ w _ err Herr eq_refl)
      as (w' & Hrun & Hm & He & _).
    eauto. }
  repeat constructor; apply Hall.
Qed.

(** ** Termination of the traversals *)

(** Marking one more node of the universe leaves one node less to mark. *)
Lemma size_difference_mark (universe marked : gset Z) (c : Z) :
  c ∈ universe -> c ∉ marked ->
  size (universe ∖ marked) = S (size (universe ∖ ({[c]} ∪ marked))).
Proof.
  intros Hin Hnot.
  transitivity (size ({[c]} ∪ universe ∖ ({[c]} ∪ marked))).
  - f_equal. apply set_eq. intros x.
    rewrite elem_of_union, !elem_of_difference, elem_of_union, elem_of_singleton.
    destruct (decide (x = c)) as [->|]; naive_solver.
  - rewrite size_union.
    + by rewrite size_singleton.
    + intros x. rewrite elem_of_singleton, elem_of_difference, elem_of_union,
        elem_of_singleton. naive_solver.
Qed.

Section CollectLoop.
Variable childrenMap : gmap Z (list Z).

Lemma allChildren_spec current l c :
  childrenMap !! current = Some l -> c ∈ l -> c ∈ allChildren childrenMap.
Proof.
  unfold allChildren. revert current l c.
  apply (map_fold_weak_ind
           (fun (acc : gset Z) (m : gmap Z (list Z)) =>
              forall current l c, m !! current = Some l -> c ∈ l -> c ∈ acc)).
  - intros current l c H. by rewrite lookup_empty in H.
  - intros i x m r Hfresh IH current l c Hl Hc.
    apply elem_of_union. destruct (decide (i = current)) as [->|Hne].
    + rewrite lookup_insert_eq in Hl. injection Hl as ->.
      left. by apply elem_of_list_to_set.
    + rewrite lookup_insert_ne in Hl by done. right. eauto.
Qed.

Lemma children_in_allChildren current c :
  c ∈ default [] (childrenMap !! current) -> c ∈ allChildren childrenMap.
Proof.
  destruct (childrenMap !! current) as [l|] eqn:E; simpl.
  - by apply allChildren_spec with current.
  - intros H. by apply elem_of_nil in H.
Qed.

Lemma visitChild_pending universe visited stack child :
  child ∈ universe ->
  pending universe (visitChild (visited, stack) child).1
                   (visitChild (visited, stack) child).2 =
  pending universe visited stack.
Proof.
  intros Hin. unfold visitChild, pending. simpl.
  destruct (decide (child ∈ visited)) as [Hv|Hv]; simpl; [done|].
  rewrite (size_difference_mark universe visited child) by done. lia.
Qed.

Lemma visitChildren_pending universe children visited stack :
  (forall c, c ∈ children -> c ∈ universe) ->
  pending universe (visitChildren children visited stack).1
                   (visitChildren children visited stack).2 =
  pending universe visited stack.
Proof.
  unfold visitChildren. revert visited stack.
  induction children as [|c children IH]; intros visited stack Hin; simpl; [done|].
  destruct (visitChild (visited, stack) c) as [v1 s1] eqn:E.
  rewrite IH.
  - pose proof (visitChild_pending universe visited stack c) as H.
    rewrite E in H. apply H. apply Hin. by left.
  - intros c' Hc'. apply Hin. by right.
Qed.

(** With fuel for every pending node the loop ends. *)
Lemma collectLoop_fuel fuel visited stack :
  (pending (allChildren childrenMap) visited stack <= fuel)%nat ->
  is_Some (collectLoop fuel childrenMap visited stack).
Proof.
  revert visited stack.
  induction fuel as [|fuel IH]; intros visited stack Hfuel.
  - destruct stack as [|current rest]; simpl; [eauto|].
    unfold pending in Hfuel. simpl in Hfuel. lia.
  - destruct stack as [|current rest]; simpl; [eauto|].
    apply IH.
    rewrite visitChildren_pending by (intros c; apply children_in_allChildren).
    unfold pending in *. simpl in Hfuel. lia.
Qed.

(** More fuel does not change the result. *)
Lemma collectLoop_more fuel fuel' visited stack result :
  collectLoop fuel childrenMap visited stack = Some result ->
  (fuel <= fuel')%nat ->
  collectLoop fuel' childrenMap visited stack = Some result.
Proof.
  revert fuel' visited stack.
  induction fuel as [|fuel IH]; intros fuel' visited stack Hres Hle.
  - destruct stack; simpl in Hres; [|done].
    destruct fuel'; simpl; done.
  - destruct stack as [|current rest]; simpl in Hres.
    + destruct fuel'; simpl; done.
    + destruct fuel' as [|fuel']; [lia|]. simpl. apply IH; [done|lia].
Qed.

Lemma collectLoop_root root :
  is_Some (collectLoop (collectFuel childrenMap) childrenMap ∅ [root]).
Proof.
  apply collectLoop_fuel. unfold pending, collectFuel. simpl.
  rewrite difference_empty_L. lia.
Qed.

Lemma collectDescendants_loop root :
  collectLoop (collectFuel childrenMap) childrenMap ∅ [root] =
  Some (collectDescendants root childrenMap).
Proof.
  unfold collectDescendants.
  destruct (collectLoop_root root) as [result ->]. done.
Qed.
End CollectLoop.

Section DepthLoop.
Variable mothers : gmap Z (option Z).
Variable nodesById : gmap Z ClauseNodeDTO.

Lemma depthLoop_fuel fuel depth current seen :
  (size (dom nodesById ∖ seen) <= fuel)%nat ->
  is_Some (depthLoop fuel mothers nodesById depth current seen).
Proof.
  revert depth current seen.
  induction fuel as [|fuel IH]; intros depth current seen Hfuel;
    (destruct current as [cur|]; simpl; [|eauto]);
    destruct (bool_decide (is_Some (nodesById !! cur))) eqn:Hin; simpl; eauto;
    destruct (bool_decide (cur ∉ seen)) eqn:Hseen; simpl; eauto;
    apply bool_decide_eq_true in Hin, Hseen;
    apply elem_of_dom in Hin;
    pose proof (size_difference_mark (dom nodesById) seen cur Hin Hseen) as Hsize.
  - lia.
  - apply IH. lia.
Qed.

Lemma depthLoop_more fuel fuel' depth current seen result :
  depthLoop fuel mothers nodesById depth current seen = Some result ->
  (fuel <= fuel')%nat ->
  depthLoop fuel' mothers nodesById depth current seen = Some result.
Proof.
  revert fuel' depth current seen.
  induction fuel as [|fuel IH]; intros fuel' depth current seen Hres Hle;
    (destruct current as [cur|]; [|by destruct fuel']); simpl in Hres.
  - destruct fuel'; simpl;
      destruct (bool_decide (is_Some (nodesById !! cur)) && bool_decide (cur ∉ seen));
      done.
  - destruct fuel' as [|fuel']; simpl;
      destruct (bool_decide (is_Some (nodesById !! cur)) && bool_decide (cur ∉ seen));
      try done; try lia.
    apply IH; [done|lia].
Qed.
End DepthLoop.

(** C6. For every children index and every mother map, cyclic ones
    included, the loop of [collectDescendants] and the depth walk of
    [buildRenderTree] end: from the stated amount of fuel on, each yields
    one and the same result.  A node is marked before it is pushed (or
    walked through) and a marked node is never taken again, which bounds
    the iterations by the number of nodes. *)
Theorem traversals_terminate (childrenMap : gmap Z (list Z))
    (mothers : gmap Z (option Z)) (nodesById : gmap Z ClauseNodeDTO)
    (root id : Z) :
  (exists visited : gset Z,
      forall fuel, (collectFuel childrenMap <= fuel)%nat ->
        collectLoop fuel childrenMap ∅ [root] = Some visited) /\
  (exists depth : nat,
      forall fuel, (size nodesById <= fuel)%nat ->
        computeDepthFuel fuel mothers nodesById id = Some depth).
Proof.
  split.
  - exists (collectDescendants root childrenMap). intros fuel Hfuel.
    eapply collectLoop_more; [apply collectDescendants_loop|done].
  - destruct (depthLoop_fuel mothers nodesById (size nodesById) 0%nat
                (get_or_null mothers id) ∅) as [depth Hdepth].
    { rewrite difference_empty_L, size_dom. done. }
    exists depth. intros fuel Hfuel. unfold computeDepthFuel.
    eapply depthLoop_more; [exact Hdepth|done].
Qed.

(** ** The descendant set *)

(** A set that holds the children of [a] and of each of its own members
    holds every descendant of [a]. *)
Lemma Descendant_closed (mothers : gmap Z (option Z)) (V : gset Z) (c a : Z) :
  Descendant mothers c a ->
  (forall v, v = a \/ v ∈ V ->
     forall c', mothers !! c' = Some (Some v) -> c' ∈ V) ->
  c ∈ V.
Proof.
  induction 1 as [c a Hc|c b a Hc Hb IH]; intros Hclosed.
  - apply (Hclosed a); [by left|done].
  - apply (Hclosed b); [right; by apply IH|done].
Qed.

Section Traversal.
Variable mothers : gmap Z (option Z).
Variable root : Z.

Lemma visitChildren_visited children visited stack x :
  x ∈ (visitChildren children visited stack).1 <-> x ∈ visited \/ x ∈ children.
Proof.
  unfold visitChildren. revert visited stack.
  induction children as [|c children IH]; intros visited stack; simpl.
  - split; [auto|]. intros [H|H]; [done|]. by apply elem_of_nil in H.
  - unfold visitChild at 2. simpl.
    destruct (decide (c ∈ visited)) as [Hc|Hc]; rewrite IH.
    + rewrite elem_of_cons. split; [tauto|].
      intros [H|[->|H]]; tauto.
    + rewrite elem_of_union, elem_of_singleton, elem_of_cons. tauto.
Qed.

Lemma visitChildren_stack children visited stack x :
  x ∈ (visitChildren children visited stack).2 <->
  x ∈ stack \/ (x ∈ children /\ x ∉ visited).
Proof.
  unfold visitChildren. revert visited stack.
  induction children as [|c children IH]; intros visited stack; simpl.
  - split; [auto|]. intros [H|[H _]]; [done|]. by apply elem_of_nil in H.
  - unfold visitChild at 2. simpl.
    destruct (decide (c ∈ visited)) as [Hc|Hc]; rewrite IH.
    + rewrite elem_of_cons. split; [tauto|].
      intros [H|[[->|H] Hx]]; tauto.
    + rewrite !elem_of_cons, elem_of_union, elem_of_singleton.
      destruct (decide (x = c)) as [->|Hxc]; tauto.
Qed.

(** Soundness: whatever is marked descends from the root. *)
Lemma collectLoop_sound fuel visited stack result :
  (forall v, v ∈ visited -> Descendant mothers v root) ->
  (forall s, s ∈ stack -> s = root \/ Descendant mothers s root) ->
  collectLoop fuel (buildChildrenMap mothers) visited stack = Some result ->
  forall v, v ∈ result -> Descendant mothers v root.
Proof.
  revert visited stack.
  induction fuel as [|fuel IH]; intros visited stack Hvisited Hstack Hres;
    (destruct stack as [|current rest]; simpl in Hres;
     [injection Hres as <-; done|]); [done|].
  assert (forall c, c ∈ default [] (buildChildrenMap mothers !! current) ->
                    Descendant mothers c root) as Hchildren.
  { intros c Hc. apply children_of_lookup in Hc.
    destruct (Hstack current) as [->|Hcur]; [by left| |].
    - by apply desc_child.
    - by apply desc_step with current. }
  eapply IH; [| |exact Hres].
  - intros v Hv. apply visitChildren_visited in Hv as [Hv|Hv]; auto.
  - intros s Hs. apply visitChildren_stack in Hs as [Hs|[Hs _]].
    + apply Hstack. by right.
    + right. auto.
Qed.

Lemma collectLoop_complete fuel visited stack result :
  expanded mothers root visited stack ->
  collectLoop fuel (buildChildrenMap mothers) visited stack = Some result ->
  expanded mothers root result [].
Proof.
  revert visited stack.
  induction fuel as [|fuel IH]; intros visited stack Hexp Hres;
    (destruct stack as [|current rest]; simpl in Hres;
     [injection Hres as <-; done|]); [done|].
  eapply IH; [|exact Hres].
  intros v Hv.
  destruct (decide (v ∈ default [] (buildChildrenMap mothers !! current)
                    /\ v ∉ visited)) as [Hnew|Hold].
  - left. apply visitChildren_stack. by right.
  - assert (v = root \/ v ∈ visited) as Hv'.
    { destruct Hv as [Hv|Hv]; [by left|].
      apply visitChildren_visited in Hv as [Hv|Hv]; [by right|].
      destruct (decide (v ∈ visited)); [by right|]. exfalso. by apply Hold. }
    destruct (Hexp v Hv') as [Hin|Hdone].
    + apply elem_of_cons in Hin as [->|Hin].
      * right. intros c Hc. apply visitChildren_visited. right.
        by apply children_of_lookup.
      * left. apply visitChildren_stack. by left.
    + right. intros c Hc. apply visitChildren_visited. left. auto.
Qed.

(** [collectDescendants] computes the descendant set of the root. *)
Lemma collectDescendants_spec c :
  c ∈ collectDescendants root (buildChildrenMap mothers) <->
  Descendant mothers c root.
Proof.
  pose proof (collectDescendants_loop (buildChildrenMap mothers) root) as Hloop.
  split.
  - eapply collectLoop_sound; [| |exact Hloop].
    + intros v Hv. by apply not_elem_of_empty in Hv.
    + intros s Hs. left. by apply list_elem_of_singleton in Hs.
  - intros Hdesc.
    assert (expanded mothers root
              (collectDescendants root (buildChildrenMap mothers)) [])
      as Hexp.
    { eapply collectLoop_complete; [|exact Hloop].
      intros v [->|Hv].
      - left. by apply list_elem_of_singleton.
      - by apply not_elem_of_empty in Hv. }
    apply (Descendant_closed mothers _ c root Hdesc).
    intros v Hv. destruct (Hexp v Hv) as [Hin|Hall]; [|done].
    by apply elem_of_nil in Hin.
Qed.
End Traversal.

(** ** The drop targets of the mirror *)

Section DropTargets.
Variable st : TreeState.
Variable childId : Z.

Lemma addTarget_fold (forbidden : gset Z) (byId : gmap Z ClauseNodeDTO) (c : Z) :
  c ∈ map_fold (addTarget childId forbidden) ∅ byId <->
  exists candidate,
    byId !! c = Some candidate /\ draggable candidate = true /\
    (c ∉ forbidden) /\ c < childId.
Proof.
  revert c.
  apply (map_fold_weak_ind
           (fun (targets : gset Z) (m : gmap Z ClauseNodeDTO) =>
              forall c, c ∈ targets <->
                exists candidate,
                  m !! c = Some candidate /\ draggable candidate = true /\
                  (c ∉ forbidden) /\ c < childId)).
  - intros c. split.
    + intros H. by apply not_elem_of_empty in H.
    + intros (candidate & H & _). by rewrite lookup_empty in H.
  - intros i x m r Hfresh IH c.
    assert (c ∈ addTarget childId forbidden i x r <->
            c ∈ r \/ (c = i /\ draggable x = true /\ (i ∉ forbidden) /\ i < childId))
      as ->.
    { unfold addTarget.
      destruct (decide (i ∈ forbidden)) as [Hf|Hf]; [tauto|].
      destruct (draggable x); simpl; [|split; [tauto|intros [?|(_ & ? & _)]; done]].
      destruct (Z.geb_spec i childId) as [Hge|Hlt].
      - split; [tauto|]. intros [?|(_ & _ & _ & ?)]; [done|lia].
      - rewrite elem_of_union, elem_of_singleton. tauto. }
    rewrite IH. split.
    + intros [(candidate & Hc & H)|(-> & H)].
      * exists candidate. split; [|done].
        rewrite lookup_insert_ne; [done|]. congruence.
      * exists x. by rewrite lookup_insert_eq.
    + intros (candidate & Hc & H).
      destruct (decide (i = c)) as [->|Hne].
      * rewrite lookup_insert_eq in Hc. injection Hc as ->. right. tauto.
      * rewrite lookup_insert_ne in Hc by done. left. eauto.
Qed.

(** The targets offered for a node of the scope. *)
Lemma nodeTargets_spec (c : Z) :
  is_Some (nodesById st !! childId) ->
  (c ∈ nodeTargets (computeDropTargets st childId) <->
   exists candidate,
     nodesById st !! c = Some candidate /\ draggable candidate = true /\
     (c ∉ ({[childId]} ∪ collectDescendants childId (buildChildrenMap (mothers st)) : gset Z)) /\
     c < childId).
Proof.
  intros [n Hn]. unfold computeDropTargets. rewrite Hn. simpl.
  apply addTarget_fold.
Qed.

(** Nothing that is forbidden is offered, whether the node is in the
    scope or not. *)
Lemma nodeTargets_not_forbidden (d : Z) :
  d ∈ ({[childId]} ∪ collectDescendants childId (buildChildrenMap (mothers st)) : gset Z) ->
  d ∉ nodeTargets (computeDropTargets st childId).
Proof.
  intros Hd Hin. destruct (nodesById st !! childId) as [n|] eqn:Hn.
  - apply nodeTargets_spec in Hin as (candidate & _ & _ & Hnot & _); [done|eauto].
  - unfold computeDropTargets in Hin. rewrite Hn in Hin. simpl in Hin.
    by apply not_elem_of_empty in Hin.
Qed.
End DropTargets.

(** C1, as the code has it.  For a node [child] of the loaded scope, the
    targets offered are exactly the draggable nodes of the scope that are
    no descendant of [child] under the mother map, are not [child]
    itself, and whose identity is smaller than that of [child]. *)
Theorem computeDropTargets_targets (st : TreeState) (child c : Z) :
  is_Some (nodesById st !! child) ->
  (c ∈ nodeTargets (computeDropTargets st child) <->
   (exists candidate,
       nodesById st !! c = Some candidate /\ draggable candidate = true) /\
   ~ Descendant (mothers st) c child /\ c <> child /\ c < child).
Proof.
  intros Hchild. rewrite nodeTargets_spec by done.
  assert (c ∉ ({[child]} ∪ collectDescendants child (buildChildrenMap (mothers st)) : gset Z)
          <-> ~ Descendant (mothers st) c child /\ c <> child) as Hforbidden.
  { rewrite elem_of_union, elem_of_singleton, collectDescendants_spec. tauto. }
  split.
  - intros (candidate & Hc & Hd & Hnot & Hlt).
    apply Hforbidden in Hnot. split; [eauto|]. tauto.
  - intros ((candidate & Hc & Hd) & Hnot & Hne & Hlt). exists candidate.
    split; [done|]. split; [done|]. split; [|done]. by apply Hforbidden.
Qed.

Lemma computeDropTargets_targets_witness :
  is_Some (nodesById Sample.scope !! 4) /\
  (2 ∈ nodeTargets (computeDropTargets Sample.scope 4) <->
   (exists candidate,
       nodesById Sample.scope !! 2 = Some candidate /\
       draggable candidate = true) /\
   ~ Descendant (mothers Sample.scope) 2 4 /\ 2 <> 4 /\ 2 < 4).
Proof.
  assert (is_Some (nodesById Sample.scope !! 4)) as H by (vm_compute; eauto).
  split; [exact H|].
  exact (computeDropTargets_targets Sample.scope 4 2 H).
Defined.

(** C1, as it is stated, fails: in the sample scope node [3] is
    draggable and is neither [2] nor one of its descendants, and yet it
    is not offered when [2] is dragged, because [3 >= 2]. *)
Lemma computeDropTargets_excludes_later_nodes :
  ~ (forall c : Z,
       (exists candidate,
           nodesById Sample.scope !! c = Some candidate /\
           draggable candidate = true) ->
       c ∉ ({[2]} ∪ collectDescendants 2 (buildChildrenMap (mothers Sample.scope)) : gset Z) ->
       c ∈ nodeTargets (computeDropTargets Sample.scope 2)).
Proof.
  intros Hall.
  assert (3 ∉ nodeTargets (computeDropTargets Sample.scope 2)) as Hnot
    by by_evaluation.
  apply Hnot, Hall.
  - eexists. split; vm_compute; reflexivity.
  - by_evaluation.
Qed.

(** ** The engine's ancestor walk *)

Section AncestorWalk.
Variable st : Engine.State.

Lemma effectiveMap_lookup (n : Z) :
  Engine.effectiveMap st !! n = Engine.resolve st n.
Proof.
  unfold Engine.effectiveMap. rewrite map_lookup_imap.
  unfold Engine.resolve. by destruct (Engine.corpus st !! n).
Qed.

Lemma resolve_known (n : Z) (m : option Z) :
  Engine.resolve st n = Some m -> is_Some (Engine.corpus st !! n).
Proof.
  unfold Engine.resolve. destruct (Engine.corpus st !! n); [eauto|done].
Qed.

Lemma encounters_pathTo target fuel x :
  Engine.encounters fuel st x target = true <-> is_Some (pathTo st target fuel x).
Proof.
  revert x. induction fuel as [|fuel IH]; intros x; simpl.
  - split; [done|]. by intros [? ?].
  - destruct (decide (x = target)); [split; eauto|].
    destruct (Engine.resolve st x) as [[m|]|]; try (split; [done|by intros [? ?]]).
    rewrite IH. rewrite fmap_is_Some. done.
Qed.






End AncestorWalk.



Lemma descendant_known (st : Engine.State) (d child : Z) :
  Descendant (Engine.effectiveMap st) d child ->
  is_Some (Engine.corpus st !! d).
Proof.
  intros Hd.
  destruct Hd as [d a Hd|d b a Hd _]; rewrite effectiveMap_lookup in Hd;
    by apply resolve_known in Hd.
Qed.



(** ** The identifiers of the drag-and-drop zones *)

Lemma to_int_not_nil (n : Z) :
  Z.to_int n <> Decimal.Pos Decimal.Nil /\ Z.to_int n <> Decimal.Neg Decimal.Nil.
Proof.
  destruct n as [|p|p]; simpl; split; try discriminate;
    intros H; injection H as H; by apply DecimalPos.Unsigned.to_uint_nonnil in H.
Qed.

(** Reading back the decimal notation of an integer gives the integer. *)
Lemma Number_stringOfNumber (n : Z) : Number (stringOfNumber n) = Some n.
Proof.
  unfold stringOfNumber. destruct (to_int_not_nil n) as [Hpos Hneg].
  pose proof (NilZero.isi (Z.to_int n) Hpos Hneg) as Hread.
  unfold Number.
  destruct (NilZero.string_of_int (Z.to_int n)) as [|a s] eqn:E; [done|].
  rewrite Hread. simpl. by rewrite DecimalZ.of_to.
Qed.

Lemma substring_all (s : string) : String.substring 0 (String.length s) s = s.
Proof. induction s as [|a s IH]; simpl; [done|]. by rewrite IH. Qed.

Lemma prefix_append (p s : string) : String.prefix p (p +:+ s) = true.
Proof.
  induction p as [|a p IH]; simpl.
  - by destruct s.
  - destruct (Ascii.ascii_dec a a); [done|congruence].
Qed.

Lemma substring_append (p s : string) :
  String.substring (String.length p)
    (String.length (p +:+ s) - String.length p) (p +:+ s) = s.
Proof.
  induction p as [|a p IH]; simpl.
  - rewrite Nat.sub_0_r. apply substring_all.
  - apply IH.
Qed.

Lemma replace_unfold (s p r : string) :
  replace s p r =
  if String.prefix p s
  then r +:+ String.substring (String.length p)
                (String.length s - String.length p) s
  else match s with
       | EmptyString => s
       | String c s' => String c (replace s' p r)
       end.
Proof. by destruct s. Qed.

(** Replacing a pattern the string starts with removes that prefix. *)
Lemma replace_prefix (p s : string) : replace (p +:+ s) p "" = s.
Proof.
  rewrite replace_unfold, prefix_append, substring_append. done.
Qed.

Lemma parseDragId_draggableId (n : Z) : parseDragId (draggableId n) = Some n.
Proof.
  unfold parseDragId, draggableId, startsWith.
  rewrite prefix_append, replace_prefix. apply Number_stringOfNumber.
Qed.

Lemma parseDropId_droppableId (n : Z) : parseDropId (droppableId n) = Some n.
Proof.
  unfold parseDropId, droppableId, startsWith.
  rewrite prefix_append, replace_prefix. apply Number_stringOfNumber.
Qed.

Lemma droppableId_not_root (n : Z) : droppableId n <> rootDropId.
Proof. unfold droppableId, rootDropId. simpl. intros H. discriminate H. Qed.

(** ** Cycle prevention *)




(** Rule 1 comes before rule 3: where [d] is [child] itself the engine
    answers [SelfParent], not [CycleDetected]. *)
Lemma self_reparent_is_not_CycleDetected :
  ~ (forall child d : Z,
       is_Some (Engine.corpus Sample.engine !! child) ->
       d = child \/ Descendant (Engine.effectiveMap Sample.engine) d child ->
       Engine.validate Sample.engine (Engine.Reparent child d) =
       Engine.Reject Engine.CycleDetected).
Proof.
  intros Hall.
  assert (Engine.validate Sample.engine (Engine.Reparent 1 1) =
          Engine.Reject Engine.CycleDetected) as H.
  { apply Hall.
    - vm_compute. eauto.
    - by left. }
  vm_compute in H. discriminate H.
Qed.

(** ** No self-loop *)

Section DropOnSelf.
Variable server : list Request -> Request -> Completion Response.
Variable JSON_parse : string -> Completion JsValue.
Variable json_as_edge : string -> Completion EdgeEnvelope.

(** Whatever targets were computed, a drop of [n] onto its own zone
    reports the error and ends the drag; nothing is sent. *)
Lemma handleDrop_self (w : AppWorld) (n : Z) (targets : DropTargets) :
  dropTargets (app w) = Some targets ->
  handleDrop server JSON_parse json_as_edge
    {| active := draggableId n; over := Some (droppableId n) |} w =
  (Return tt,
   {| hook := updateTree (setError (Some "같은 노드에는 연결할 수 없습니다.")) (hook w);
      app := {| activeDragId := None; dropTargets := None;
                pendingAction := None;
                selectedNodeId := selectedNodeId (app w) |} |}).
Proof.
  intros Htargets. unfold handleDrop. cbn [active over].
  rewrite parseDragId_draggableId. unfold bind, gets. rewrite Htargets.
  unfold tryFinally, tryCatch, dropOnto.
  rewrite (decide_False (P := droppableId n = rootDropId))
    by apply droppableId_not_root.
  rewrite parseDropId_droppableId. rewrite decide_True by done.
  reflexivity.
Qed.

Lemma handleDragStart_targets (w : AppWorld) (n : Z) :
  dropTargets (app (handleDragStart {| active := draggableId n; over := None |} w).2) =
  Some (computeDropTargets (tree (hook w)) n) /\
  tree (hook (handleDragStart {| active := draggableId n; over := None |} w).2) =
  setError None (tree (hook w)) /\
  sent (hook (handleDragStart {| active := draggableId n; over := None |} w).2) =
  sent (hook w).
Proof.
  unfold handleDragStart. cbn [active over].
  rewrite parseDragId_draggableId. done.
Qed.
End DropOnSelf.

(** A drag in the sample scope against a backend that refuses: node [3]
    is dropped onto [1], the one request is sent, its failure is
    reported and the mothers map stays as it was; dropped onto itself,
    nothing is sent at all. *)
Example drag_and_drop_on_the_sample :
  let start := {| hook := Sample.world; app := Sample.idle |} in
  let drop (target : Z) :=
    handleDrop Sample.refusing Sample.noJson Sample.noEdge
      {| active := draggableId 3; over := Some (droppableId target) |}
      (handleDragStart {| active := draggableId 3; over := None |} start).2 in
  (drop 1).1 = Return tt /\
  sent (hook (drop 1).2) = [PostReparent 3 1] /\
  error (tree (hook (drop 1).2)) = Some "CycleDetected" /\
  mothers (tree (hook (drop 1).2)) = Sample.baseMothers /\
  (drop 3).1 = Return tt /\
  sent (hook (drop 3).2) = [] /\
  error (tree (hook (drop 3).2)) = Some "같은 노드에는 연결할 수 없습니다.".
Proof. vm_compute. repeat split. Qed.

(** C5. For every node [n]: the engine refuses to reparent [n] onto
    itself with [SelfParent] and keeps its state; the mirror never offers
    [n] among the targets computed for [n]; and dragging [n] and dropping
    it onto its own zone completes with the error reported, no request
    sent and the mothers map and edited set as they were. *)
Theorem no_self_loop (st : Engine.State) (ts : TreeState)
    (server : list Request -> Request -> Completion Response)
    (JSON_parse : string -> Completion JsValue)
    (json_as_edge : string -> Completion EdgeEnvelope)
    (w : AppWorld) (n : Z) :
  Engine.mutate st (Engine.Reparent n n) = (st, Engine.Refused Engine.SelfParent) /\
  (n ∉ nodeTargets (computeDropTargets ts n)) /\
  let dragged :=
    (handleDragStart {| active := draggableId n; over := None |} w).2 in
  let dropped :=
    handleDrop server JSON_parse json_as_edge
      {| active := draggableId n; over := Some (droppableId n) |} dragged in
  dropped.1 = Return tt /\
  error (tree (hook dropped.2)) = Some "같은 노드에는 연결할 수 없습니다." /\
  sent (hook dropped.2) = sent (hook w) /\
  mothers (tree (hook dropped.2)) = mothers (tree (hook w)) /\
  edited (tree (hook dropped.2)) = edited (tree (hook w)).
Proof.
  split; [|split].
  - unfold Engine.mutate, Engine.validate. by rewrite decide_True.
  - apply nodeTargets_not_forbidden, elem_of_union. left.
    by apply elem_of_singleton.
  - intros dragged dropped.
    destruct (handleDragStart_targets w n) as (Htargets & Htree & Hsent).
    fold dragged in Htargets, Htree, Hsent.
    subst dropped.
    rewrite (handleDrop_self server JSON_parse json_as_edge dragged n _ Htargets).
    simpl. rewrite Htree, Hsent. done.
Qed.

(** ** Undo and redo *)

Section UndoRedo.
Variable st : Engine.State.
Variable child : Z.
Variable newMother : option Z.

Lemma restore_previous :
  Engine.restore child (Engine.overlay st !! child)
    (<[child := newMother]> (Engine.overlay st)) = Engine.overlay st.
Proof.
  apply map_eq. intros n. unfold Engine.restore.
  destruct (Engine.overlay st !! child) as [target|] eqn:E.
  - destruct (decide (n = child)) as [->|Hne].
    + by rewrite lookup_insert_eq.
    + by rewrite !lookup_insert_ne.
  - destruct (decide (n = child)) as [->|Hne].
    + by rewrite lookup_delete_eq.
    + rewrite lookup_delete_ne by done. by rewrite lookup_insert_ne.
Qed.

Lemma undo_apply :
  Engine.undo (Engine.apply st child newMother) =
  ({| Engine.corpus := Engine.corpus st;
      Engine.config := Engine.config st;
      Engine.overlay := Engine.overlay st;
      Engine.version := S (S (Engine.version st));
      Engine.history := Engine.history st;
      Engine.future :=
        [{| Engine.child := child;
            Engine.previous := Engine.overlay st !! child;
            Engine.next := Some newMother;
            Engine.seq := S (Engine.version st) |}] |},
   Engine.Changed (Engine.edgeOf st child)).
Proof.
  unfold Engine.undo, Engine.apply. simpl. rewrite restore_previous. done.
Qed.

Lemma redo_undo_apply :
  Engine.redo (Engine.undo (Engine.apply st child newMother)).1 =
  ({| Engine.corpus := Engine.corpus st;
      Engine.config := Engine.config st;
      Engine.overlay := <[child := newMother]> (Engine.overlay st);
      Engine.version := S (S (S (Engine.version st)));
      Engine.history := Engine.history (Engine.apply st child newMother);
      Engine.future := [] |},
   Engine.Changed (Engine.edgeOf (Engine.apply st child newMother) child)).
Proof. rewrite undo_apply. done. Qed.
End UndoRedo.

Lemma mutate_accepted (st st1 : Engine.State) (m : Engine.Mutation) (e : EdgeDTO) :
  Engine.mutate st m = (st1, Engine.Changed e) ->
  st1 = Engine.apply st (Engine.childOf m) (Engine.targetOf m) /\
  e = Engine.edgeOf st1 (Engine.childOf m) /\
  is_Some (Engine.corpus st !! Engine.childOf m).
Proof.
  unfold Engine.mutate. destruct (Engine.validate st m) eqn:Hv; [|done].
  intros H. injection H as <- <-. split; [done|]. split; [done|].
  unfold Engine.validate in Hv. destruct m as [c p|c]; simpl.
  - destruct (decide (p = c)); [done|].
    destruct (bool_decide (is_Some (Engine.corpus st !! c))) eqn:Hc;
      [by apply bool_decide_eq_true in Hc|done].
  - destruct (Engine.corpus st !! c); [eauto|done].
Qed.

(** C4.  When the engine accepts a mutation [m] of a child and answers
    the edge [e], an undo right after it succeeds, puts the overlay, and
    with it the effective mother of every node, back to what it was
    before [m], and answers the child's edge of before; a redo after
    that succeeds, gives the effective mothers of after [m] again and
    answers [e].  A mirror that held the child's mother and edited mark
    of before [m] is, by applying the three answered edges in turn, first
    back at its own mothers map and edited set and then where the first
    edge had put it. *)
Theorem undo_redo_inverse (st st1 : Engine.State) (m : Engine.Mutation)
    (e : EdgeDTO) :
  Engine.mutate st m = (st1, Engine.Changed e) ->
  exists (st2 st3 : Engine.State) (e2 : EdgeDTO),
    Engine.undo st1 = (st2, Engine.Changed e2) /\
    Engine.overlay st2 = Engine.overlay st /\
    (forall n, Engine.resolve st2 n = Engine.resolve st n) /\
    e2 = Engine.edgeOf st (Engine.childOf m) /\
    Engine.redo st2 = (st3, Engine.Changed e) /\
    Engine.overlay st3 = Engine.overlay st1 /\
    (forall n, Engine.resolve st3 n = Engine.resolve st1 n) /\
    (forall ts : TreeState,
        mothers ts !! Engine.childOf m = Engine.resolve st (Engine.childOf m) ->
        (Engine.childOf m ∈ edited ts <->
         is_Some (Engine.overlay st !! Engine.childOf m)) ->
        mothers (applyEdgeUpdate e2 (applyEdgeUpdate e ts)) = mothers ts /\
        edited (applyEdgeUpdate e2 (applyEdgeUpdate e ts)) = edited ts /\
        mothers (applyEdgeUpdate e (applyEdgeUpdate e2 (applyEdgeUpdate e ts))) =
        mothers (applyEdgeUpdate e ts) /\
        edited (applyEdgeUpdate e (applyEdgeUpdate e2 (applyEdgeUpdate e ts))) =
        edited (applyEdgeUpdate e ts)).
Proof.
  intros Hm. apply mutate_accepted in Hm as (-> & -> & Hknown).
  set (child := Engine.childOf m). set (target := Engine.targetOf m).
  eexists _, _, _. split; [apply undo_apply|].
  split; [done|]. split; [done|]. split; [done|].
  split; [reflexivity|].
  split; [done|]. split; [done|].
  intros ts Hmirror Hedited.
  unfold applyEdgeUpdate, setEdited, setMothers, Engine.edgeOf. simpl.
  rewrite lookup_insert_eq.
  rewrite (decide_True (P := is_Some (Some target))) by eauto.
  destruct Hknown as [nd Hnd].
  assert (exists before, Engine.resolve st child = Some before) as [before Hbefore].
  { unfold Engine.resolve. fold child in Hnd. rewrite Hnd. eauto. }
  rewrite Hbefore in *. simpl.
  repeat split.
  - rewrite insert_insert_eq. by apply insert_id.
  - apply set_eq. intros x.
    destruct (decide (is_Some (Engine.overlay st !! child))) as [Hov|Hov].
    + rewrite !elem_of_union, elem_of_singleton.
      destruct (decide (x = child)) as [->|]; [|tauto].
      split; [intros _; by apply Hedited|auto].
    + rewrite elem_of_difference, elem_of_union, !elem_of_singleton.
      destruct (decide (x = child)) as [->|]; [|tauto].
      split; [tauto|]. intros Hin. by apply Hedited in Hin.
  - by rewrite !insert_insert_eq.
  - destruct (decide (is_Some (Engine.overlay st !! child))); set_solver.
Qed.

(** The scenario of the specification, undone and redone. *)
Lemma undo_redo_inverse_witness :
  let st := Sample.engine in
  let m := Engine.Reparent 3 4 in
  let st1 := (Engine.mutate st m).1 in
  let e := {| from := 3; to := Some 4; source := user |} in
  Engine.mutate st m = (st1, Engine.Changed e) /\
  exists (st2 st3 : Engine.State) (e2 : EdgeDTO),
    Engine.undo st1 = (st2, Engine.Changed e2) /\
    Engine.overlay st2 = Engine.overlay st /\
    (forall n, Engine.resolve st2 n = Engine.resolve st n) /\
    e2 = Engine.edgeOf st (Engine.childOf m) /\
    Engine.redo st2 = (st3, Engine.Changed e) /\
    Engine.overlay st3 = Engine.overlay st1 /\
    (forall n, Engine.resolve st3 n = Engine.resolve st1 n) /\
    (forall ts : TreeState,
        mothers ts !! Engine.childOf m = Engine.resolve st (Engine.childOf m) ->
        (Engine.childOf m ∈ edited ts <->
         is_Some (Engine.overlay st !! Engine.childOf m)) ->
        mothers (applyEdgeUpdate e2 (applyEdgeUpdate e ts)) = mothers ts /\
        edited (applyEdgeUpdate e2 (applyEdgeUpdate e ts)) = edited ts /\
        mothers (applyEdgeUpdate e (applyEdgeUpdate e2 (applyEdgeUpdate e ts))) =
        mothers (applyEdgeUpdate e ts) /\
        edited (applyEdgeUpdate e (applyEdgeUpdate e2 (applyEdgeUpdate e ts))) =
        edited (applyEdgeUpdate e ts)).
Proof.
  intros st m st1 e.
  assert (Engine.mutate st m = (st1, Engine.Changed e)) as H
    by (vm_compute; reflexivity).
  split; [exact H|].
  exact (undo_redo_inverse st st1 m e H).
Defined.

(** The concrete scenario of the specification, step by step. *)
Example scenario_of_the_specification :
  let st1 := (Engine.mutate Sample.engine (Engine.Reparent 3 4)).1 in
  (Engine.mutate Sample.engine (Engine.Reparent 3 4)).2 =
    Engine.Changed {| from := 3; to := Some 4; source := user |} /\
  Engine.resolve st1 3 = Some (Some 4) /\
  (Engine.mutate st1 (Engine.Reparent 1 3)).2 = Engine.Refused Engine.CycleDetected /\
  (Engine.undo st1).2 =
    Engine.Changed {| from := 3; to := Some 1; source := original |} /\
  (Engine.redo (Engine.undo st1).1).2 =
    Engine.Changed {| from := 3; to := Some 4; source := user |} /\
  (Engine.redo st1).2 = Engine.Refused Engine.EmptyFuture.
Proof. vm_compute. repeat split. Qed.

(** A refused reparent of the sample scope. *)
Lemma handleMutation_failure_untouched_witness :
  let mutator :=
    reparent Sample.noJson (fetch Sample.refusing) Sample.noEdge 1 3 in
  let w := Sample.world in
  let w1 := {| tree := setMutating true Sample.scope;
               sent := [PostReparent 1 3]; timers := [] |} in
  let err := ErrorObject Error "CycleDetected" in
  callOnly mutator /\
  mutator (updateTree (setMutating true) w) = (Throw err, w1) /\
  exists w',
    handleMutation mutator w = (Throw err, w') /\
    mothers (tree w') = mothers (tree w) /\
    edited (tree w') = edited (tree w) /\
    nodes (tree w') = nodes (tree w) /\
    error (tree w') = Some (messageOr "편집에 실패했습니다." err).
Proof.
  intros mutator w w1 err.
  assert (callOnly mutator) as H0 by (intros w0; reflexivity).
  assert (mutator (updateTree (setMutating true) w) = (Throw err, w1)) as H1
    by reflexivity.
  split; [exact H0|]. split; [exact H1|].
  exact (handleMutation_failure_untouched mutator w w1 err H0 H1).
Defined.

(** ** Container containment *)

(** The engine's rule 4: a reparent across containers that passed the
    first three rules is refused with [ScopeViolation] and changes
    nothing, unless crossing is allowed. *)
Lemma engine_scope_containment (st : Engine.State) (child mother : Z) :
  is_Some (Engine.corpus st !! child) ->
  is_Some (Engine.corpus st !! mother) ->
  Engine.containerOf st child <> Engine.containerOf st mother ->
  Engine.allowCrossScope (Engine.config st) = false ->
  Engine.encounters (size (Engine.corpus st)) st mother child = false ->
  Engine.mutate st (Engine.Reparent child mother) =
  (st, Engine.Refused Engine.ScopeViolation).
Proof.
  intros Hchild Hmother Hcontainer Hcross Hwalk.
  unfold Engine.mutate, Engine.validate.
  rewrite decide_False by (intros ->; done).
  rewrite !bool_decide_eq_true_2 by done. simpl.
  rewrite Hwalk, Hcross. simpl.
  by rewrite bool_decide_eq_false_2.
Qed.

Lemma pathTo_container (st : Engine.State) (target : Z) (fuel : nat)
    (x : Z) (l : list Z) :
  contained st -> pathTo st target fuel x = Some l ->
  Engine.containerOf st x = Engine.containerOf st target.
Proof.
  intros Hinv. revert x l.
  induction fuel as [|fuel IH]; intros x l Hl; simpl in Hl; [done|].
  destruct (decide (x = target)) as [->|]; [done|].
  destruct (Engine.resolve st x) as [[m|]|] eqn:Hx; try done.
  destruct (pathTo st target fuel m) as [l'|] eqn:E; [|done].
  rewrite (Hinv x m Hx). by apply IH with l'.
Qed.

(** Where every effective mother shares the container of its child, no
    node of another container is met by the ancestor walk, so the
    engine refuses every reparent across containers with
    [ScopeViolation]. *)
Lemma engine_scope_containment_contained (st : Engine.State) (child mother : Z) :
  contained st ->
  is_Some (Engine.corpus st !! child) ->
  is_Some (Engine.corpus st !! mother) ->
  Engine.containerOf st child <> Engine.containerOf st mother ->
  Engine.allowCrossScope (Engine.config st) = false ->
  Engine.mutate st (Engine.Reparent child mother) =
  (st, Engine.Refused Engine.ScopeViolation).
Proof.
  intros Hinv Hchild Hmother Hcontainer Hcross.
  apply engine_scope_containment; try done.
  destruct (Engine.encounters _ st mother child) eqn:Hwalk; [|done].
  apply encounters_pathTo in Hwalk as [l Hl].
  apply pathTo_container in Hl; [|done]. congruence.
Qed.

(** A refused mutation, an undo without history and a redo without
    future leave the engine as it was. *)
Lemma engine_refusal_untouched (st st' : Engine.State) (signal : Engine.Signal) :
  (forall m, Engine.mutate st m = (st', Engine.Refused signal) -> st' = st) /\
  (Engine.undo st = (st', Engine.Refused signal) -> st' = st) /\
  (Engine.redo st = (st', Engine.Refused signal) -> st' = st).
Proof.
  split; [|split].
  - intros m. unfold Engine.mutate.
    destruct (Engine.validate st m); [done|]. by intros [= <- _].
  - unfold Engine.undo. destruct (Engine.history st); [|done]. by intros [= <- _].
  - unfold Engine.redo. destruct (Engine.future st); [|done]. by intros [= <- _].
Qed.

(** C3 at the failing input.  In the sample scope the clauses [1] and
    [3] lie in different verses; all the same [1] is among the targets
    the mirror offers when [3] is dragged: [computeDropTargets] never
    reads [containerId]. *)
Theorem computeDropTargets_ignores_container :
  exists dragged offered : ClauseNodeDTO,
    nodesById Sample.scope !! 3 = Some dragged /\
    nodesById Sample.scope !! 1 = Some offered /\
    1 ∈ nodeTargets (computeDropTargets Sample.scope 3) /\
    containerId offered <> containerId dragged.
Proof.
  eexists _, _.
  split; [vm_compute; reflexivity|]. split; [vm_compute; reflexivity|].
  split; [by_evaluation|]. simpl. discriminate.
Qed.

(** * Further properties of the client *)

(** ** Maps built from lists *)

Section KeyedFold.
Context {A V : Type}.
Variable key : A -> Z.
Variable val : A -> V.

(** A map filled by [set] in list order holds, under each key, the value
    of the last item with that key. *)
Lemma foldl_insert_lookup (l : list A) (k : Z) :
  foldl (fun (m : gmap Z V) x => <[key x := val x]> m) ∅ l !! k =
  val <$> last (filter (fun x => key x = k) l).
Proof.
  induction l as [|x l IH] using rev_ind; [done|].
  rewrite foldl_app. simpl. rewrite filter_app.
  destruct (decide (key x = k)) as [<-|Hne].
  - rewrite lookup_insert_eq. rewrite (filter_cons_True _ x []) by done.
    rewrite filter_nil. by rewrite last_snoc.
  - rewrite lookup_insert_ne by done.
    rewrite (filter_cons_False _ x []) by done.
    rewrite filter_nil. by rewrite app_nil_r.
Qed.
End KeyedFold.

(** Items with pairwise different keys are told apart by their keys. *)
Lemma NoDup_fmap_same_key {A B : Type} (f : A -> B) (l : list A) (x y : A) :
  NoDup (f <$> l) -> x ∈ l -> y ∈ l -> f x = f y -> x = y.
Proof.
  induction l as [|z l IH]; intros Hnodup Hx Hy Hf.
  - by apply elem_of_nil in Hx.
  - rewrite fmap_cons in Hnodup. apply NoDup_cons in Hnodup as [Hz Hnodup].
    apply elem_of_cons in Hx as [->|Hx]; apply elem_of_cons in Hy as [->|Hy].
    + done.
    + exfalso. apply Hz. rewrite Hf. by apply list_elem_of_fmap_2.
    + exfalso. apply Hz. rewrite <- Hf. by apply list_elem_of_fmap_2.
    + by apply IH.
Qed.

(** X1. [buildEdgeMap] holds, for each child, the mother of the last edge
    of the list that leaves the child; a child no edge leaves has no
    entry; and with one edge per child every edge of the list is found. *)
Theorem buildEdgeMap_lookup (edges : list EdgeDTO) (k : Z) :
  buildEdgeMap edges !! k = to <$> last (filter (fun e => from e = k) edges) /\
  (k ∉ from <$> edges -> buildEdgeMap edges !! k = None) /\
  (NoDup (from <$> edges) ->
   forall e, e ∈ edges -> buildEdgeMap edges !! from e = Some (to e)).
Proof.
  assert (forall k', buildEdgeMap edges !! k' =
                     to <$> last (filter (fun e => from e = k') edges)) as Hlookup
    by (intros k'; apply (foldl_insert_lookup from to)).
  split; [apply Hlookup|]. split.
  - intros Hk. rewrite Hlookup.
    destruct (last _) as [e|] eqn:E; [|done].
    apply last_Some_elem_of, list_elem_of_filter in E as [<- He].
    exfalso. apply Hk. by apply list_elem_of_fmap_2.
  - intros Hnodup e He. rewrite Hlookup.
    destruct (last _) as [e'|] eqn:E.
    + apply last_Some_elem_of, list_elem_of_filter in E as [Hfrom He'].
      simpl. f_equal. f_equal.
      by apply (NoDup_fmap_same_key from edges).
    + apply last_None in E.
      exfalso. by apply (filter_nil_not_elem_of _ _ e E).
Qed.

(** X2. [nodesById] stores a node under its own identity only, every
    node of the list has an entry under its identity, and with one node
    per identity that entry is the node itself. *)
Theorem indexNodes_lookup (nodes : list ClauseNodeDTO) :
  (forall k n, indexNodes nodes !! k = Some n -> id n = k /\ n ∈ nodes) /\
  (forall n, n ∈ nodes -> is_Some (indexNodes nodes !! id n)) /\
  (NoDup (id <$> nodes) ->
   forall n, n ∈ nodes -> indexNodes nodes !! id n = Some n).
Proof.
  assert (forall k, indexNodes nodes !! k =
                    last (filter (fun n => id n = k) nodes)) as Hlookup.
  { intros k. unfold indexNodes.
    rewrite (foldl_insert_lookup id (fun n => n)).
    by destruct (last _). }
  split; [|split].
  - intros k n Hn. rewrite Hlookup in Hn.
    by apply last_Some_elem_of, list_elem_of_filter in Hn.
  - intros n Hn. rewrite Hlookup. apply last_is_Some.
    intros E. by apply (filter_nil_not_elem_of _ _ n E).
  - intros Hnodup n Hn. rewrite Hlookup.
    destruct (last _) as [n'|] eqn:E.
    + apply last_Some_elem_of, list_elem_of_filter in E as [Hid Hn'].
      f_equal. by apply (NoDup_fmap_same_key id nodes).
    + apply last_None in E.
      exfalso. by apply (filter_nil_not_elem_of _ _ n E).
Qed.

(** ** The order of the node list *)

Lemma insertBySlot_perm (x : ClauseNodeDTO) (l : list ClauseNodeDTO) :
  insertBySlot x l ≡ₚ x :: l.
Proof.
  induction l as [|y l IH]; simpl; [done|].
  destruct (slotsStart x <=? slotsStart y); [done|].
  rewrite IH. apply Permutation_swap.
Qed.

Lemma sortBySlot_perm (l : list ClauseNodeDTO) : sortBySlot l ≡ₚ l.
Proof.
  induction l as [|x l IH]; simpl; [done|].
  rewrite insertBySlot_perm. by rewrite IH.
Qed.

Lemma insertBySlot_sorted (x : ClauseNodeDTO) (l : list ClauseNodeDTO) :
  StronglySorted slotOrder l -> StronglySorted slotOrder (insertBySlot x l).
Proof.
  induction l as [|y l IH]; intros Hsorted; simpl.
  - repeat constructor.
  - apply StronglySorted_cons in Hsorted as [Hy Hsorted].
    destruct (Z.leb_spec (slotsStart x) (slotsStart y)) as [Hle|Hlt].
    + apply StronglySorted_cons. split.
      * constructor; [done|]. eapply Forall_impl; [exact Hy|].
        intros z Hz. unfold slotOrder in *. lia.
      * by apply StronglySorted_cons.
    + apply StronglySorted_cons. split; [|by apply IH].
      rewrite insertBySlot_perm. constructor; [|done].
      unfold slotOrder. lia.
Qed.

Lemma sortBySlot_sorted (l : list ClauseNodeDTO) :
  StronglySorted slotOrder (sortBySlot l).
Proof.
  induction l as [|x l IH]; simpl; [constructor|].
  by apply insertBySlot_sorted.
Qed.

(** Stability: the nodes of one key keep their order. *)
Lemma insertBySlot_stable (k : Z) (x : ClauseNodeDTO) (l : list ClauseNodeDTO) :
  filter (fun n => slotsStart n = k) (insertBySlot x l) =
  filter (fun n => slotsStart n = k) (x :: l).
Proof.
  induction l as [|y l IH]; simpl; [done|].
  destruct (Z.leb_spec (slotsStart x) (slotsStart y)) as [Hle|Hlt]; [done|].
  rewrite (filter_cons _ y), IH, !(filter_cons _ x), !(filter_cons _ y).
  destruct (decide (slotsStart y = k)), (decide (slotsStart x = k));
    try done; lia.
Qed.

Lemma sortBySlot_stable (k : Z) (l : list ClauseNodeDTO) :
  filter (fun n => slotsStart n = k) (sortBySlot l) =
  filter (fun n => slotsStart n = k) l.
Proof.
  induction l as [|x l IH]; simpl; [done|].
  rewrite insertBySlot_stable, !(filter_cons _ x), IH. done.
Qed.

Lemma userEdited_spec (edges : list EdgeDTO) (x : Z) :
  x ∈ userEdited edges <-> exists e, e ∈ edges /\ from e = x /\ source e = user.
Proof.
  unfold userEdited. rewrite elem_of_list_to_set, list_elem_of_fmap.
  split.
  - intros (e & -> & He). apply list_elem_of_filter in He as [Hs He]. eauto.
  - intros (e & He & <- & Hs). exists e. split; [done|].
    by apply list_elem_of_filter.
Qed.

(** ** Scopes and subtrees *)

(** The edges of a scope reply, read as the mirror reads them: a node of
    the scope gets its effective edge, and every entry is the effective
    edge of its node. *)
Lemma query_edges_lookup (st : Engine.State) (scope : string) (n : Z) :
  is_Some (Engine.corpus st !! n) ->
  Engine.withinScope st scope n = true ->
  buildEdgeMap (Engine.query st scope).2 !! n = Engine.effectiveMap st !! n.
Proof.
  intros [nd Hn] Hin. unfold buildEdgeMap, Engine.query. cbn [snd].
  rewrite (foldl_insert_lookup from to), effectiveMap_lookup.
  set (found := filter _ (elements (dom (Engine.corpus st)))).
  assert (n ∈ found) as Hfound.
  { apply list_elem_of_filter. split; [done|].
    apply elem_of_elements, elem_of_dom. eauto. }
  destruct (last (filter (fun x => from x = n) (Engine.edgeOf st <$> found)))
    as [e|] eqn:E.
  - apply last_Some_elem_of, list_elem_of_filter in E as [Hfrom He].
    apply list_elem_of_fmap in He as (k & -> & _). simpl in Hfrom. subst k.
    simpl. unfold Engine.resolve. by rewrite Hn.
  - apply last_None in E.
    assert (Engine.edgeOf st n ∈
            filter (fun x => from x = n) (Engine.edgeOf st <$> found)) as Hin'.
    { apply list_elem_of_filter. split; [done|].
      apply list_elem_of_fmap. eauto. }
    rewrite E in Hin'. by apply elem_of_nil in Hin'.
Qed.

Lemma query_edges_inStep (st : Engine.State) (scope : string) (ts : TreeState) :
  mothers ts = buildEdgeMap (Engine.query st scope).2 ->
  inStep st ts.
Proof.
  intros Hmothers n m Hn. rewrite Hmothers in Hn.
  unfold buildEdgeMap, Engine.query in Hn. cbn [snd] in Hn.
  rewrite (foldl_insert_lookup from to) in Hn.
  apply fmap_Some in Hn as (e & E & ->).
  apply last_Some_elem_of, list_elem_of_filter in E as [Hfrom He].
  apply list_elem_of_fmap in He as (k & -> & Hk). simpl in Hfrom. subst k.
  apply list_elem_of_filter in Hk as [_ Hk].
  apply elem_of_elements, elem_of_dom in Hk as [nd Hnd].
  simpl. unfold Engine.resolve. by rewrite Hnd.
Qed.

(** Where effective mothers share the container of their child, the
    descendants of a node lie in its container. *)
Lemma contained_descendant (st : Engine.State) (d child : Z) :
  contained st ->
  Descendant (Engine.effectiveMap st) d child ->
  Engine.containerOf st d = Engine.containerOf st child.
Proof.
  intros Hcontained Hd.
  induction Hd as [d a Hd|d b a Hd Hb IH]; rewrite effectiveMap_lookup in Hd.
  - by apply Hcontained.
  - rewrite <- IH. by apply Hcontained.
Qed.

(** So a mirror loaded from the reply to a scope holds the subtree of
    every node of the scope, as long as effective mothers share the
    container of their child. *)
Lemma loaded_scope_holds_subtree (st : Engine.State) (scope : string)
    (ts : TreeState) (child : Z) :
  contained st ->
  mothers ts = buildEdgeMap (Engine.query st scope).2 ->
  Engine.withinScope st scope child = true ->
  holdsSubtree st ts child.
Proof.
  intros Hcontained Hmothers Hchild n Hn. rewrite Hmothers.
  apply query_edges_lookup; [by apply descendant_known with child|].
  unfold Engine.withinScope in *.
  by rewrite (contained_descendant st n child).
Qed.

(** ** Refresh *)

Section RefreshFacts.
Variable server : list Request -> Request -> Completion Response.
Variable JSON_parse : string -> Completion JsValue.
Variable json_as_tree : string -> Completion TreeResponse.TreeResponseDTO.

(** What a refresh that got its data leaves behind. *)
Lemma refresh_loaded (scope : option string) (w : World) (res : Response)
    (data : TreeResponse.TreeResponseDTO) :
  server (sent w)
    (GetTree match scope with
             | None | Some EmptyString => None
             | Some s => Some s
             end) = Return res ->
  ok res = true ->
  json_as_tree (body res) = Return data ->
  refresh server JSON_parse json_as_tree scope w =
  (Return tt,
   {| tree := {| loading := false; mutating := mutating (tree w);
                 error := None;
                 nodes := sortBySlot (TreeResponse.nodes data);
                 mothers := buildEdgeMap (TreeResponse.edges data);
                 edited := userEdited (TreeResponse.edges data) |};
      sent := sent w ++
              [GetTree match scope with
                       | None | Some EmptyString => None
                       | Some s => Some s
                       end];
      timers := timers w |}).
Proof.
  intros Hres Hok Hdata.
  unfold refresh, fetchTree, bind, tryFinally, tryCatch, modify.
  unfold fetch at 1. simpl. rewrite Hres.
  unfold handleResponse. rewrite Hok. unfold liftCompletion.
  rewrite Hdata. reflexivity.
Qed.
End RefreshFacts.

(** A hook that loads a scope from the engine's reply mirrors the edges
    of the reply; so it is in step with the engine, and it holds the
    subtree of every node of the scope where effective mothers share the
    container of their child. *)
Lemma loaded_mothers (st : Engine.State) (scope : string) :
  mothers (Sample.loaded st scope) = buildEdgeMap (Engine.query st scope).2.
Proof.
  unfold Sample.loaded.
  by rewrite (refresh_loaded _ _ _ (Some scope) _
                {| ok := true; body := "tree" |} (Sample.reply st scope)).
Qed.

Lemma loaded_inStep (st : Engine.State) (scope : string) :
  inStep st (Sample.loaded st scope).
Proof. apply query_edges_inStep with scope, loaded_mothers. Qed.

Lemma loaded_holds_subtree (st : Engine.State) (scope : string) (child : Z) :
  contained st ->
  Engine.withinScope st scope child = true ->
  holdsSubtree st (Sample.loaded st scope) child.
Proof.
  intros Hcontained Hchild.
  by apply loaded_scope_holds_subtree with scope; [|apply loaded_mothers|].
Qed.

(** X3. A refresh whose request is answered with an ok response that
    holds a tree replaces the mirror: the node list is the list received,
    reordered by [slotsStart] with nodes of one [slotsStart] in their
    received order; the mothers map and the edited set are built from the
    edges; the error is cleared and [loading] is off; exactly the one
    [GetTree] request was sent. *)
Theorem refresh_success
    (server : list Request -> Request -> Completion Response)
    (JSON_parse : string -> Completion JsValue)
    (json_as_tree : string -> Completion TreeResponse.TreeResponseDTO)
    (scope : option string) (w : World) (res : Response)
    (data : TreeResponse.TreeResponseDTO) :
  server (sent w)
    (GetTree match scope with
             | None | Some EmptyString => None
             | Some s => Some s
             end) = Return res ->
  ok res = true ->
  json_as_tree (body res) = Return data ->
  exists w',
    refresh server JSON_parse json_as_tree scope w = (Return tt, w') /\
    nodes (tree w') ≡ₚ TreeResponse.nodes data /\
    StronglySorted slotOrder (nodes (tree w')) /\
    (forall k, filter (fun n => slotsStart n = k) (nodes (tree w')) =
               filter (fun n => slotsStart n = k) (TreeResponse.nodes data)) /\
    mothers (tree w') = buildEdgeMap (TreeResponse.edges data) /\
    (forall x, x ∈ edited (tree w') <->
       exists e, e ∈ TreeResponse.edges data /\ from e = x /\ source e = user) /\
    error (tree w') = None /\
    loading (tree w') = false /\
    length (sent w') = S (length (sent w)).
Proof.
  intros Hres Hok Hdata. eexists. split.
  { by apply refresh_loaded with res. }
  simpl.
  split; [apply sortBySlot_perm|]. split; [apply sortBySlot_sorted|].
  split; [intros k; apply sortBySlot_stable|]. split; [done|].
  split; [apply userEdited_spec|]. split; [done|]. split; [done|].
  rewrite length_app. simpl. lia.
Qed.

Lemma refresh_success_witness :
  let w := Sample.world in
  let res := {| ok := true; body := "tree" |} in
  Sample.serving (sent w) (GetTree (Some "Genesis.1")) = Return res /\
  ok res = true /\
  Sample.asTree (body res) = Return Sample.treeData /\
  exists w',
    refresh Sample.serving Sample.noJson Sample.asTree (Some "Genesis.1") w =
    (Return tt, w') /\
    nodes (tree w') ≡ₚ TreeResponse.nodes Sample.treeData /\
    StronglySorted slotOrder (nodes (tree w')) /\
    (forall k, filter (fun n => slotsStart n = k) (nodes (tree w')) =
               filter (fun n => slotsStart n = k)
                 (TreeResponse.nodes Sample.treeData)) /\
    mothers (tree w') = buildEdgeMap (TreeResponse.edges Sample.treeData) /\
    (forall x, x ∈ edited (tree w') <->
       exists e, e ∈ TreeResponse.edges Sample.treeData /\ from e = x /\
                 source e = user) /\
    error (tree w') = None /\
    loading (tree w') = false /\
    length (sent w') = S (length (sent w)).
Proof.
  intros w res.
  split; [reflexivity|]. split; [reflexivity|]. split; [reflexivity|].
  exact (refresh_success Sample.serving Sample.noJson Sample.asTree
           (Some "Genesis.1") w res Sample.treeData eq_refl eq_refl eq_refl).
Defined.

(** X4. [refresh] never throws: it always completes normally with
    [loading] off, having sent exactly one request and set no timer; and
    whenever it ends with an error message set, the node list, the
    mothers map and the edited set are the ones from before the call. *)
Theorem refresh_settles
    (server : list Request -> Request -> Completion Response)
    (JSON_parse : string -> Completion JsValue)
    (json_as_tree : string -> Completion TreeResponse.TreeResponseDTO)
    (scope : option string) (w : World) :
  (refresh server JSON_parse json_as_tree scope w).1 = Return tt /\
  loading (tree (refresh server JSON_parse json_as_tree scope w).2) = false /\
  mutating (tree (refresh server JSON_parse json_as_tree scope w).2) =
    mutating (tree w) /\
  length (sent (refresh server JSON_parse json_as_tree scope w).2) =
    S (length (sent w)) /\
  timers (refresh server JSON_parse json_as_tree scope w).2 = timers w /\
  (error (tree (refresh server JSON_parse json_as_tree scope w).2) <> None ->
   nodes (tree (refresh server JSON_parse json_as_tree scope w).2) = nodes (tree w) /\
   mothers (tree (refresh server JSON_parse json_as_tree scope w).2) = mothers (tree w) /\
   edited (tree (refresh server JSON_parse json_as_tree scope w).2) = edited (tree w)).
Proof.
  unfold refresh, fetchTree, bind, tryFinally, tryCatch, modify.
  unfold fetch at 1. simpl.
  destruct (server _ _) as [res|e]; simpl.
  - destruct (ok res) eqn:Hok.
    + unfold handleResponse. rewrite Hok. unfold liftCompletion.
      destruct (json_as_tree (body res)) as [data|e]; simpl;
        rewrite length_app; simpl; repeat split; try done; lia.
    + rewrite handleResponse_not_ok by done. simpl.
      rewrite length_app; simpl; repeat split; try done; lia.
  - rewrite length_app; simpl; repeat split; try done; lia.
Qed.

(** ** The incremental update against a refetch *)

(** X5. When the child of a mutation's edge [e] has an edge in the list
    the mirror was loaded from, applying [e] to the mirror gives the
    mothers map and the edited set that loading the list with the
    child's edge replaced by [e] would give. *)
Theorem applyEdgeUpdate_as_refetch (edges : list EdgeDTO) (e : EdgeDTO)
    (st : TreeState) :
  from e ∈ from <$> edges ->
  mothers st = buildEdgeMap edges ->
  edited st = userEdited edges ->
  mothers (applyEdgeUpdate e st) =
    buildEdgeMap ((fun x => if decide (from x = from e) then e else x) <$> edges) /\
  edited (applyEdgeUpdate e st) =
    userEdited ((fun x => if decide (from x = from e) then e else x) <$> edges).
Proof.
  intros Hin Hmothers Hedited.
  set (g := fun x : EdgeDTO => if decide (from x = from e) then e else x).
  assert (forall x, from (g x) = from x) as Hfrom.
  { intros x. unfold g. by destruct (decide (from x = from e)). }
  apply list_elem_of_fmap in Hin as (y & Hy & Hyin).
  split.
  - apply map_eq. intros k.
    unfold applyEdgeUpdate, setEdited, setMothers. simpl. rewrite Hmothers.
    unfold buildEdgeMap. rewrite !(foldl_insert_lookup from to).
    destruct (decide (from e = k)) as [<-|Hne].
    + rewrite lookup_insert_eq.
      assert (exists x, last (filter (fun x => from x = from e) (g <$> edges)) = Some x)
        as [x Hx].
      { apply last_is_Some. intros E.
        apply (filter_nil_not_elem_of _ _ (g y) E).
        - by rewrite Hfrom.
        - by apply list_elem_of_fmap_2. }
      rewrite Hx. apply last_Some_elem_of, list_elem_of_filter in Hx as [Hx1 Hx2].
      apply list_elem_of_fmap in Hx2 as (z & -> & Hz).
      rewrite Hfrom in Hx1. unfold g. by rewrite decide_True.
    + rewrite lookup_insert_ne by done.
      rewrite (foldl_insert_lookup from to).
      assert (filter (fun x => from x = k) (g <$> edges) =
              filter (fun x => from x = k) edges) as ->; [|done].
      clear Hy Hyin Hmothers Hedited. induction edges as [|z l IH]; [done|].
      rewrite fmap_cons, !filter_cons, Hfrom, IH.
      destruct (decide (from z = k)) as [Hz|]; [|done].
      unfold g. rewrite decide_False by congruence. done.
  - apply set_eq. intros x.
    unfold applyEdgeUpdate, setEdited, setMothers. simpl. rewrite Hedited.
    rewrite userEdited_spec.
    assert (x ∈ (match source e with
                 | original => userEdited edges ∖ {[from e]}
                 | user => {[from e]} ∪ userEdited edges
                 end) <->
            (x = from e /\ source e = user) \/
            (x <> from e /\ x ∈ userEdited edges)) as ->.
    { destruct (source e) eqn:Hs.
      - rewrite elem_of_difference, elem_of_singleton.
        split; [intros [? ?]; right; done|].
        intros [[_ ?]|[? ?]]; done.
      - rewrite elem_of_union, elem_of_singleton.
        destruct (decide (x = from e)); split; try tauto; intros [[? ?]|[? ?]]; auto. }
    rewrite userEdited_spec. split.
    + intros [[-> Hs]|(Hne & e' & He' & <- & Hs)].
      * exists e. split; [|done].
        apply list_elem_of_fmap. exists y. split; [|done].
        unfold g. by rewrite decide_True.
      * exists e'. split; [|done].
        apply list_elem_of_fmap. exists e'. split; [|done].
        unfold g. by rewrite decide_False.
    + intros (e' & He' & <- & Hs).
      apply list_elem_of_fmap in He' as (z & -> & Hz). unfold g in *.
      destruct (decide (from z = from e)) as [Heq|Hne].
      * left. done.
      * right. split; [done|]. eauto.
Qed.

Lemma applyEdgeUpdate_as_refetch_witness :
  let edges := TreeResponse.edges Sample.treeData in
  let e := {| from := 3; to := Some 4; source := user |} in
  let st := {| loading := false; mutating := false; error := None;
               nodes := nodes Sample.scope;
               mothers := buildEdgeMap edges; edited := userEdited edges |} in
  from e ∈ from <$> edges /\
  mothers (applyEdgeUpdate e st) =
    buildEdgeMap ((fun x => if decide (from x = from e) then e else x) <$> edges) /\
  edited (applyEdgeUpdate e st) =
    userEdited ((fun x => if decide (from x = from e) then e else x) <$> edges).
Proof.
  intros edges e st.
  assert (from e ∈ from <$> edges) as H by by_evaluation.
  split; [exact H|].
  exact (applyEdgeUpdate_as_refetch edges e st H eq_refl eq_refl).
Defined.

(** ** The life of a mutation in the hook *)

(** [handleMutation] in one equation, by the completion of the mutator. *)
Lemma handleMutation_unfold (mutator : M World EdgeDTO) (w : World) :
  handleMutation mutator w =
  match mutator (updateTree (setMutating true) w) with
  | (Return edge, w1) =>
      (Return tt,
       {| tree := setError None (applyEdgeUpdate edge (tree w1));
          sent := sent w1;
          timers := timers w1 ++ [(REFETCH_DELAY, setMutating false)] |})
  | (Throw err, w1) =>
      (Throw err,
       {| tree := setError (Some (messageOr "편집에 실패했습니다." err)) (tree w1);
          sent := sent w1;
          timers := timers w1 ++ [(REFETCH_DELAY, setMutating false)] |})
  end.
Proof.
  unfold handleMutation, bind, tryFinally, tryCatch, modify, throw, setTimeout.
  simpl. destruct (mutator _) as [[edge|err] w1]; reflexivity.
Qed.

Section RequestFacts.
Variable server : list Request -> Request -> Completion Response.
Variable JSON_parse : string -> Completion JsValue.
Variable json_as_edge : string -> Completion EdgeEnvelope.

(** A call of [api.ts] adds its one request to those sent and changes
    nothing else. *)
Lemma request_effect (req : Request) (w : World) :
  exists c,
    (let! res := fetch server req in
     let! data := handleResponse JSON_parse json_as_edge res in
     ret (edge data)) w =
    (c, {| tree := tree w; sent := sent w ++ [req]; timers := timers w |}).
Proof.
  unfold bind at 1. unfold fetch at 1.
  destruct (server (sent w) req) as [res|e]; [|eauto].
  unfold bind. destruct (ok res) eqn:Hok.
  - unfold handleResponse. rewrite Hok. unfold liftCompletion.
    destruct (json_as_edge (body res)); simpl; eauto.
  - rewrite handleResponse_not_ok by done. eauto.
Qed.

Lemma hook_request_sent (req : Request) (w : World) :
  sent (handleMutation
          (let! res := fetch server req in
           let! data := handleResponse JSON_parse json_as_edge res in
           ret (edge data)) w).2 = sent w ++ [req].
Proof.
  rewrite handleMutation_unfold.
  destruct (request_effect req (updateTree (setMutating true) w)) as [c ->].
  by destruct c.
Qed.
End RequestFacts.

(** X6. The busy flag of a mutation.  For a mutator that is a call of
    [api.ts], [handleMutation] completes normally exactly when the
    mutator does; it leaves [mutating] on and sets exactly one timer, of
    150 ms, whose callback turns [mutating] off and touches neither the
    mothers map nor the edited set; and after a mutator that answered an
    edge, the mirror is the old one with that edge applied and the error
    cleared. *)
Theorem handleMutation_busy_flag (mutator : M World EdgeDTO) (w : World) :
  callOnly mutator ->
  ((handleMutation mutator w).1 = Return tt <->
   exists edge, (mutator (updateTree (setMutating true) w)).1 = Return edge) /\
  mutating (tree (handleMutation mutator w).2) = true /\
  (exists reset,
      timers (handleMutation mutator w).2 =
      timers (mutator (updateTree (setMutating true) w)).2 ++ [(150, reset)] /\
      forall st, mutating (reset st) = false /\
                 mothers (reset st) = mothers st /\
                 edited (reset st) = edited st) /\
  (forall edge,
      (mutator (updateTree (setMutating true) w)).1 = Return edge ->
      mothers (tree (handleMutation mutator w).2) =
        <[from edge := to edge]> (mothers (tree w)) /\
      edited (tree (handleMutation mutator w).2) =
        edited (applyEdgeUpdate edge (tree w)) /\
      nodes (tree (handleMutation mutator w).2) = nodes (tree w) /\
      error (tree (handleMutation mutator w).2) = None).
Proof.
  intros Hcall. rewrite handleMutation_unfold.
  specialize (Hcall (updateTree (setMutating true) w)).
  destruct (mutator _) as [[edge|err] w1]; simpl in *; rewrite Hcall; simpl.
  - split; [split; eauto|]. split; [done|].
    split; [exists (setMutating false); eauto|].
    intros edge' [= <-]. done.
  - split; [split; [done|intros [? ?]; done]|]. split; [done|].
    split; [exists (setMutating false); eauto|]. intros edge' ?. done.
Qed.

Lemma handleMutation_busy_flag_witness :
  let mutator :=
    reparent Sample.noJson (fetch Sample.refusing) Sample.noEdge 1 3 in
  callOnly mutator /\
  mutating (tree (handleMutation mutator Sample.world).2) = true /\
  (handleMutation mutator Sample.world).1 <> Return tt.
Proof.
  intros mutator.
  assert (callOnly mutator) as H by (intros w0; reflexivity).
  split; [exact H|].
  destruct (handleMutation_busy_flag mutator Sample.world H)
    as (Hiff & Hflag & _).
  split; [exact Hflag|].
  intros Hret. apply Hiff in Hret as [edge Hedge]. discriminate Hedge.
Defined.

(** X7. Each mutation of the hook sends exactly one request, the one of
    its kind with its arguments in their places, whatever the backend
    answers. *)
Theorem hook_mutations_send_one_request
    (server : list Request -> Request -> Completion Response)
    (JSON_parse : string -> Completion JsValue)
    (json_as_edge : string -> Completion EdgeEnvelope)
    (w : World) (child newMother : Z) :
  sent (reparentNode server JSON_parse json_as_edge child newMother w).2 =
    sent w ++ [PostReparent child newMother] /\
  sent (rootifyNode server JSON_parse json_as_edge child w).2 =
    sent w ++ [PostRootify child] /\
  sent (undoLast server JSON_parse json_as_edge w).2 = sent w ++ [PostUndo] /\
  sent (redoLast server JSON_parse json_as_edge w).2 = sent w ++ [PostRedo].
Proof. repeat split; apply hook_request_sent. Qed.

(** ** Drop targets and the scope *)

(** X8. [computeDropTargets] allows the root drop exactly for a node of
    the loaded scope; for any other identity it offers no target at all;
    and whatever it offers is the identity of a draggable node of the
    node list. *)
Theorem computeDropTargets_scope (st : TreeState) (childId : Z) :
  (allowRoot (computeDropTargets st childId) = true <->
   is_Some (nodesById st !! childId)) /\
  (nodesById st !! childId = None ->
   nodeTargets (computeDropTargets st childId) = ∅) /\
  (forall c, c ∈ nodeTargets (computeDropTargets st childId) ->
     exists n, n ∈ nodes st /\ id n = c /\ draggable n = true).
Proof.
  split; [|split].
  - unfold computeDropTargets.
    destruct (nodesById st !! childId); simpl; split; eauto; done.
  - intros Hnone. unfold computeDropTargets. by rewrite Hnone.
  - intros c Hc. destruct (nodesById st !! childId) as [n0|] eqn:Hchild.
    + apply nodeTargets_spec in Hc as (n & Hn & Hd & _); [|eauto].
      exists n. unfold nodesById in Hn.
      assert (indexNodes (nodes st) !! c = last (filter (fun n => id n = c) (nodes st)))
        as Hlookup.
      { unfold indexNodes. rewrite (foldl_insert_lookup id (fun n => n)).
        by destruct (last _). }
      rewrite Hlookup in Hn.
      apply last_Some_elem_of, list_elem_of_filter in Hn as [Hid Hin]. done.
    + unfold computeDropTargets in Hc. rewrite Hchild in Hc. simpl in Hc.
      by apply not_elem_of_empty in Hc.
Qed.

(** ** Identifiers *)

(** X9. The identifier of a row's drag handle is read back as the node's
    identity by [parseDragId] and that of its drop zone by [parseDropId];
    neither parser accepts the other kind, the root drop zone or a
    numeric identifier; and different nodes get different identifiers. *)
Theorem drag_drop_ids (n m : Z) :
  parseDragId (draggableId n) = Some n /\
  parseDropId (droppableId n) = Some n /\
  parseDragId (droppableId n) = None /\
  parseDropId (draggableId n) = None /\
  parseDragId rootDropId = None /\
  parseDropId rootDropId = None /\
  parseDragId (IdNumber m) = None /\
  parseDropId (IdNumber m) = None /\
  (draggableId n = draggableId m -> n = m) /\
  (droppableId n = droppableId m -> n = m).
Proof.
  split; [apply parseDragId_draggableId|].
  split; [apply parseDropId_droppableId|].
  split; [vm_compute; reflexivity|]. split; [vm_compute; reflexivity|].
  split; [reflexivity|]. split; [reflexivity|].
  split; [reflexivity|]. split; [reflexivity|].
  split; intros H.
  - apply (f_equal parseDragId) in H.
    rewrite !parseDragId_draggableId in H. by injection H.
  - apply (f_equal parseDropId) in H.
    rewrite !parseDropId_droppableId in H. by injection H.
Qed.

(** ** The end of a drag *)

Section DropFacts.
Variable server : list Request -> Request -> Completion Response.
Variable JSON_parse : string -> Completion JsValue.
Variable json_as_edge : string -> Completion EdgeEnvelope.

(** What the [try] block of [handleDrop] sends: nothing, with the mirror
    left alone, or the one request its checks let through. *)
Lemma dropOnto_requests (childId : Z) (overId : UniqueIdentifier)
    (targets : DropTargets) (w : AppWorld) :
  exists c w1 reqs,
    dropOnto server JSON_parse json_as_edge childId overId targets w = (c, w1) /\
    sent (hook w1) = sent (hook w) ++ reqs /\
    selectedNodeId (app w1) = selectedNodeId (app w) /\
    ((reqs = [] /\ mothers (tree (hook w1)) = mothers (tree (hook w)) /\
      edited (tree (hook w1)) = edited (tree (hook w))) \/
     (reqs = [PostRootify childId] /\ overId = rootDropId /\
      allowRoot targets = true) \/
     (exists motherId,
         reqs = [PostReparent childId motherId] /\
         parseDropId overId = Some motherId /\
         motherId ∈ nodeTargets targets /\ motherId <> childId)).
Proof.
  unfold dropOnto.
  destruct (decide (overId = rootDropId)) as [Hroot|Hroot].
  - destruct (allowRoot targets) eqn:Hallow; simpl.
    + unfold bind, setPendingAction, updateApp, modify, liftHook. simpl.
      pose proof (hook_request_sent server JSON_parse json_as_edge
                    (PostRootify childId) (hook w)) as Hsent.
      fold (rootify JSON_parse (fetch server) json_as_edge childId) in Hsent.
      fold (rootifyNode server JSON_parse json_as_edge childId) in Hsent.
      destruct (rootifyNode _ _ _ _ _) as [c h]. simpl in Hsent.
      eexists _, _, _. split; [reflexivity|]. simpl.
      split; [exact Hsent|]. split; [done|]. right. left. done.
    + eexists _, _, []. split; [reflexivity|]. simpl.
      rewrite app_nil_r. split; [done|]. split; [done|]. left. done.
  - destruct (parseDropId overId) as [motherId|] eqn:Hparse.
    + destruct (decide (motherId = childId)) as [Hself|Hself].
      { eexists _, _, []. split; [reflexivity|]. simpl.
        rewrite app_nil_r. split; [done|]. split; [done|]. left. done. }
      destruct (bool_decide (motherId ∈ nodeTargets targets)) eqn:Hin; simpl.
      * apply bool_decide_eq_true in Hin.
        unfold bind, setPendingAction, updateApp, modify, liftHook. simpl.
        pose proof (hook_request_sent server JSON_parse json_as_edge
                      (PostReparent childId motherId) (hook w)) as Hsent.
        fold (reparent JSON_parse (fetch server) json_as_edge childId motherId)
          in Hsent.
        fold (reparentNode server JSON_parse json_as_edge childId motherId)
          in Hsent.
        destruct (reparentNode _ _ _ _ _ _) as [c h]. simpl in Hsent.
        eexists _, _, _. split; [reflexivity|]. simpl.
        split; [exact Hsent|]. split; [done|]. right. right.
        exists motherId. done.
      * eexists _, _, []. split; [reflexivity|]. simpl.
        rewrite app_nil_r. split; [done|]. split; [done|]. left. done.
    + eexists _, _, []. split; [reflexivity|]. simpl.
      rewrite app_nil_r. split; [done|]. split; [done|]. left. done.
Qed.

(** [handleDrop] once the drag is known: the [try] block, the [catch]
    clause and the [finally] clause. *)
Lemma handleDrop_dragging (event : DragEvent) (w : AppWorld)
    (childId : Z) (overId : UniqueIdentifier) (targets : DropTargets) :
  parseDragId (active event) = Some childId ->
  over event = Some overId ->
  dropTargets (app w) = Some targets ->
  handleDrop server JSON_parse json_as_edge event w =
  match dropOnto server JSON_parse json_as_edge childId overId targets w with
  | (c, w1) =>
      (Return tt,
       {| hook := match c with
                  | Throw (ErrorObject _ message) =>
                      updateTree (setError (Some message)) (hook w1)
                  | _ => hook w1
                  end;
          app := {| activeDragId := None; dropTargets := None;
                    pendingAction := None;
                    selectedNodeId := selectedNodeId (app w1) |} |})
  end.
Proof.
  intros Hdrag Hover Htargets. unfold handleDrop.
  rewrite Hdrag, Hover. unfold bind at 1. unfold gets at 1.
  rewrite Htargets. unfold tryFinally, tryCatch.
  destruct (dropOnto _ _ _ _ _ _ w) as [[[]|[cls message|v]] w1]; reflexivity.
Qed.

(** Without a drag, a drop zone or targets, [handleDrop] only ends the
    drag. *)
Lemma handleDrop_idle (event : DragEvent) (w : AppWorld) :
  parseDragId (active event) = None \/ over event = None \/
  dropTargets (app w) = None ->
  handleDrop server JSON_parse json_as_edge event w = resetDragState w.
Proof.
  intros Hidle. unfold handleDrop.
  destruct (parseDragId (active event)); [|done].
  destruct (over event); [|done].
  destruct Hidle as [?|[?|Htargets]]; [done|done|].
  unfold bind at 1. unfold gets at 1. by rewrite Htargets.
Qed.
End DropFacts.

(** X10. [handleDrop] never throws, whatever the event and whatever the
    backend does, and it always ends the drag: afterwards no drag is
    active and no drop targets are set, the selection is untouched, and
    when a drag with targets was under way no action is pending. *)
Theorem handleDrop_ends_the_drag
    (server : list Request -> Request -> Completion Response)
    (JSON_parse : string -> Completion JsValue)
    (json_as_edge : string -> Completion EdgeEnvelope)
    (event : DragEvent) (w : AppWorld) :
  (handleDrop server JSON_parse json_as_edge event w).1 = Return tt /\
  activeDragId (app (handleDrop server JSON_parse json_as_edge event w).2) = None /\
  dropTargets (app (handleDrop server JSON_parse json_as_edge event w).2) = None /\
  selectedNodeId (app (handleDrop server JSON_parse json_as_edge event w).2) =
    selectedNodeId (app w) /\
  (is_Some (parseDragId (active event)) -> is_Some (over event) ->
   is_Some (dropTargets (app w)) ->
   pendingAction (app (handleDrop server JSON_parse json_as_edge event w).2) = None).
Proof.
  destruct (parseDragId (active event)) as [childId|] eqn:Hdrag;
    [|rewrite handleDrop_idle by auto; do 4 (split; [done|]);
      by intros [? ?]].
  destruct (over event) as [overId|] eqn:Hover;
    [|rewrite handleDrop_idle by auto; do 4 (split; [done|]);
      by intros _ [? ?]].
  destruct (dropTargets (app w)) as [targets|] eqn:Htargets.
  - rewrite (handleDrop_dragging server JSON_parse json_as_edge event w
               childId overId targets) by done.
    destruct (dropOnto_requests server JSON_parse json_as_edge childId overId
                targets w) as (c & w1 & reqs & Hrun & _ & Hsel & _).
    rewrite Hrun. simpl. do 3 (split; [done|]). split; [exact Hsel|]. done.
  - rewrite handleDrop_idle by auto. do 4 (split; [done|]).
    by intros _ _ [? ?].
Qed.

(** X11. [handleDrop] sends at most one request, and only one its checks
    sanction: a rootify of the dragged node when the drop is on the root
    zone and the targets allow the root, or a reparent of the dragged
    node onto the node of the drop zone when that node is among the
    targets and is not the dragged node.  When it sends nothing, the
    mothers map and the edited set stay as they were. *)
Theorem handleDrop_requests
    (server : list Request -> Request -> Completion Response)
    (JSON_parse : string -> Completion JsValue)
    (json_as_edge : string -> Completion EdgeEnvelope)
    (event : DragEvent) (w : AppWorld) :
  exists reqs,
    sent (hook (handleDrop server JSON_parse json_as_edge event w).2) =
      sent (hook w) ++ reqs /\
    ((reqs = [] /\
      mothers (tree (hook (handleDrop server JSON_parse json_as_edge event w).2)) =
        mothers (tree (hook w)) /\
      edited (tree (hook (handleDrop server JSON_parse json_as_edge event w).2)) =
        edited (tree (hook w))) \/
     (exists childId targets,
         parseDragId (active event) = Some childId /\
         dropTargets (app w) = Some targets /\
         ((reqs = [PostRootify childId] /\ over event = Some rootDropId /\
           allowRoot targets = true) \/
          (exists overId motherId,
              reqs = [PostReparent childId motherId] /\
              over event = Some overId /\
              parseDropId overId = Some motherId /\
              motherId ∈ nodeTargets targets /\ motherId <> childId)))).
Proof.
  assert (forall w0 : AppWorld,
             exists reqs, sent (hook (resetDragState w0).2) = sent (hook w0) ++ reqs /\
               reqs = [] /\
               mothers (tree (hook (resetDragState w0).2)) = mothers (tree (hook w0)) /\
               edited (tree (hook (resetDragState w0).2)) = edited (tree (hook w0)))
    as Hreset.
  { intros w0. exists []. simpl. by rewrite app_nil_r. }
  destruct (parseDragId (active event)) as [childId|] eqn:Hdrag.
  2:{ rewrite handleDrop_idle by auto.
      destruct (Hreset w) as (reqs & ? & ?). exists reqs. split; [done|]. by left. }
  destruct (over event) as [overId|] eqn:Hover.
  2:{ rewrite handleDrop_idle by auto.
      destruct (Hreset w) as (reqs & ? & ?). exists reqs. split; [done|]. by left. }
  destruct (dropTargets (app w)) as [targets|] eqn:Htargets.
  2:{ rewrite handleDrop_idle by auto.
      destruct (Hreset w) as (reqs & ? & ?). exists reqs. split; [done|]. by left. }
  rewrite (handleDrop_dragging server JSON_parse json_as_edge event w
             childId overId targets) by done.
  destruct (dropOnto_requests server JSON_parse json_as_edge childId overId
              targets w) as (c & w1 & reqs & -> & Hsent & _ & Hcases).
  exists reqs. simpl.
  assert (sent match c with
               | Throw (ErrorObject _ message) =>
                   updateTree (setError (Some message)) (hook w1)
               | _ => hook w1
               end = sent (hook w1)) as -> by (by destruct c as [|[]]).
  split; [done|].
  destruct Hcases as [(-> & Hm & He)|[(-> & -> & Hallow)|(motherId & -> & Hp & Hin & Hne)]].
  - left. split; [done|]. by destruct c as [|[]].
  - right. exists childId, targets. split; [done|]. split; [done|]. by left.
  - right. exists childId, targets. split; [done|]. split; [done|]. right.
    exists overId, motherId. done.
Qed.

(** ** The forest of the mirror *)

Lemma Descendant_trans (mothers : gmap Z (option Z)) (x y z : Z) :
  Descendant mothers x y -> Descendant mothers y z -> Descendant mothers x z.
Proof.
  induction 1 as [x y Hx|x b y Hx Hb IH]; intros Hyz.
  - by apply desc_step with y.
  - apply desc_step with b; [done|]. by apply IH.
Qed.

(** On the way upward there is one way only: a node that comes back to
    itself takes every node above it round with it. *)
Lemma Descendant_cycle_shift (mothers : gmap Z (option Z)) (x c : Z) :
  Descendant mothers x c -> Descendant mothers x x -> Descendant mothers c c.
Proof.
  induction 1 as [x c Hx|x b c Hx Hb IH]; intros Hcycle.
  - inversion Hcycle as [? ? Hx'|? b' ? Hx' Hb']; subst.
    + rewrite Hx in Hx'. by injection Hx' as ->.
    + rewrite Hx in Hx'. injection Hx' as <-.
      apply Descendant_trans with x; [done|]. by apply desc_child.
  - apply IH.
    inversion Hcycle as [? ? Hx'|? b' ? Hx' Hb']; subst.
    + rewrite Hx in Hx'. injection Hx' as ->. done.
    + rewrite Hx in Hx'. injection Hx' as <-.
      apply Descendant_trans with x; [done|]. by apply desc_child.
Qed.

Section NewMother.
Variable mothers : gmap Z (option Z).
Variable child target : Z.

Lemma reparented_reaches_child (x : Z) :
  Descendant (<[child := Some target]> mothers) x child ->
  x = child \/ Descendant mothers x child.
Proof.
  remember child as c eqn:Hc. rewrite Hc at 1.
  induction 1 as [x c Hx|x b c Hx Hb IH]; subst c.
  - destruct (decide (x = child)) as [->|Hne]; [by left|].
    rewrite lookup_insert_ne in Hx by done. right. by apply desc_child.
  - destruct (decide (x = child)) as [->|Hne]; [by left|].
    rewrite lookup_insert_ne in Hx by done. right.
    destruct (IH eq_refl) as [->|Hb'].
    + by apply desc_child.
    + by apply desc_step with b.
Qed.

Lemma reparented_path (x y : Z) :
  Descendant (<[child := Some target]> mothers) x y ->
  Descendant mothers x y \/ x = child \/
  Descendant (<[child := Some target]> mothers) x child.
Proof.
  induction 1 as [x y Hx|x b y Hx Hb IH].
  - destruct (decide (x = child)) as [->|Hne]; [auto|].
    rewrite lookup_insert_ne in Hx by done. left. by apply desc_child.
  - destruct (decide (x = child)) as [->|Hne]; [auto|].
    pose proof Hx as Hx'. rewrite lookup_insert_ne in Hx' by done.
    destruct IH as [IH|[->|IH]].
    + left. by apply desc_step with b.
    + right. right. by apply desc_child.
    + right. right. by apply desc_step with b.
Qed.

(** A new mother that is neither the child nor below it makes no cycle. *)
Lemma reparented_acyclic :
  acyclic mothers -> target <> child -> ~ Descendant mothers target child ->
  acyclic (<[child := Some target]> mothers).
Proof.
  intros Hacyclic Hne Hnot.
  assert (~ Descendant (<[child := Some target]> mothers) child child) as Hchild.
  { intros Hcycle.
    inversion Hcycle as [? ? Hx|? b ? Hx Hb]; subst;
      rewrite lookup_insert_eq in Hx.
    - by injection Hx.
    - injection Hx as <-.
      by destruct (reparented_reaches_child target Hb). }
  intros x Hx. destruct (reparented_path x x Hx) as [H|[->|H]].
  - by apply (Hacyclic x).
  - done.
  - apply Hchild. by apply Descendant_cycle_shift with x.
Qed.

Lemma rootified_path (x y : Z) :
  Descendant (<[child := None]> mothers) x y -> Descendant mothers x y.
Proof.
  induction 1 as [x y Hx|x b y Hx Hb IH];
    (destruct (decide (x = child)) as [->|Hne];
     [by rewrite lookup_insert_eq in Hx|rewrite lookup_insert_ne in Hx by done]).
  - by apply desc_child.
  - by apply desc_step with b.
Qed.
End NewMother.

(** X12. The targets the mirror offers keep its forest a forest: when no
    node of the mothers map is its own ancestor, applying an edge that
    puts a node under one of the targets computed for it, or that makes
    the node a root, leaves a mothers map in which no node is its own
    ancestor. *)
Theorem offered_targets_keep_the_forest (st : TreeState) (e : EdgeDTO) :
  acyclic (mothers st) ->
  match to e with
  | Some target => target ∈ nodeTargets (computeDropTargets st (from e))
  | None => True
  end ->
  acyclic (mothers (applyEdgeUpdate e st)).
Proof.
  intros Hacyclic Hoffered.
  unfold applyEdgeUpdate, setEdited, setMothers. simpl.
  destruct (to e) as [target|].
  - destruct (nodesById st !! from e) as [n|] eqn:Hn.
    + apply nodeTargets_spec in Hoffered as (_ & _ & _ & Hnot & _); [|eauto].
      rewrite elem_of_union, elem_of_singleton, collectDescendants_spec in Hnot.
      apply reparented_acyclic; [done| |]; intros ?; apply Hnot; auto.
    + unfold computeDropTargets in Hoffered. rewrite Hn in Hoffered.
      by apply not_elem_of_empty in Hoffered.
  - intros x Hx. apply (Hacyclic x). by apply rootified_path in Hx.
Qed.

Lemma sample_forest : acyclic Sample.baseMothers.
Proof.
  assert (forall x y, Descendant Sample.baseMothers x y -> (y < x)%Z) as Hdown.
  { induction 1 as [x y Hx|x b y Hx Hb IH];
      unfold Sample.baseMothers in Hx;
      repeat (rewrite lookup_insert in Hx; case_decide; simplify_eq; try lia);
      try (by rewrite lookup_empty in Hx). }
  intros x Hx. apply Hdown in Hx. lia.
Qed.

Lemma offered_targets_keep_the_forest_witness :
  let e := {| from := 4; to := Some 3; source := user |} in
  acyclic (mothers Sample.scope) /\
  3 ∈ nodeTargets (computeDropTargets Sample.scope 4) /\
  acyclic (mothers (applyEdgeUpdate e Sample.scope)).
Proof.
  intros e.
  assert (3 ∈ nodeTargets (computeDropTargets Sample.scope 4)) as H
    by by_evaluation.
  split; [exact sample_forest|]. split; [exact H|].
  exact (offered_targets_keep_the_forest Sample.scope e sample_forest H).
Defined.

(** ** Depths *)

Section DepthFacts.
Variable mothers : gmap Z (option Z).
Variable nodesById : gmap Z ClauseNodeDTO.

Lemma depthLoop_bound fuel depth current seen result :
  depthLoop fuel mothers nodesById depth current seen = Some result ->
  (depth <= result <= depth + size (dom nodesById ∖ seen))%nat.
Proof.
  revert depth current seen.
  induction fuel as [|fuel IH]; intros depth current seen Hres;
    (destruct current as [cur|]; simpl in Hres; [|injection Hres as <-; lia]);
    destruct (bool_decide (is_Some (nodesById !! cur))) eqn:Hin; simpl in Hres;
    try (injection Hres as <-; lia);
    destruct (bool_decide (cur ∉ seen)) eqn:Hseen; simpl in Hres;
    try (injection Hres as <-; lia); [done|].
  apply bool_decide_eq_true in Hin, Hseen. apply elem_of_dom in Hin.
  rewrite (size_difference_mark (dom nodesById) seen cur) by done.
  apply IH in Hres. lia.
Qed.

(** Counting from a higher start only shifts the result. *)
Lemma depthLoop_shift fuel depth k current seen :
  depthLoop fuel mothers nodesById (depth + k) current seen =
  (fun r => (r + k)%nat) <$> depthLoop fuel mothers nodesById depth current seen.
Proof.
  revert depth current seen.
  induction fuel as [|fuel IH]; intros depth current seen;
    (destruct current as [cur|]; simpl; [|done]);
    destruct (bool_decide (is_Some (nodesById !! cur)) && bool_decide (cur ∉ seen));
    try done.
  apply (IH (S depth)).
Qed.

(** A node the walk cannot arrive at may be marked or not. *)
Lemma depthLoop_unreached fuel depth current seen p :
  (forall c, current = Some c -> c <> p /\ ~ Descendant mothers c p) ->
  depthLoop fuel mothers nodesById depth current ({[p]} ∪ seen) =
  depthLoop fuel mothers nodesById depth current seen.
Proof.
  revert depth current seen.
  induction fuel as [|fuel IH]; intros depth current seen Hfar;
    (destruct current as [cur|]; simpl; [|done]);
    destruct (Hfar cur eq_refl) as [Hne Hnot];
    assert (bool_decide (cur ∉ ({[p]} ∪ seen : gset Z)) = bool_decide (cur ∉ seen))
      as -> by (apply bool_decide_ext; set_solver);
    destruct (bool_decide (is_Some (nodesById !! cur)) && bool_decide (cur ∉ seen));
    try done.
  assert ({[cur]} ∪ ({[p]} ∪ seen) = {[p]} ∪ ({[cur]} ∪ seen) :> gset Z) as ->
    by set_solver.
  apply IH. intros c Hc. unfold get_or_null in Hc.
  destruct (mothers !! cur) as [[m|]|] eqn:Hm; simpl in Hc; try done.
  injection Hc as ->. split.
  - intros ->. apply Hnot. by apply desc_child.
  - intros Hdesc. apply Hnot. by apply desc_step with c.
Qed.

Lemma computeDepth_loop (i : Z) :
  depthLoop (size nodesById) mothers nodesById 0%nat (get_or_null mothers i) ∅ =
  Some (computeDepth mothers nodesById i).
Proof.
  unfold computeDepth, computeDepthFuel.
  destruct (depthLoop_fuel mothers nodesById (size nodesById) 0%nat
              (get_or_null mothers i) ∅) as [r ->]; [|done].
  by rewrite difference_empty_L, size_dom.
Qed.

Lemma computeDepth_step (i p : Z) :
  acyclic mothers ->
  mothers !! i = Some (Some p) -> is_Some (nodesById !! p) ->
  computeDepth mothers nodesById i = S (computeDepth mothers nodesById p).
Proof.
  intros Hacyclic Hi Hp.
  pose proof (computeDepth_loop i) as Hloop_i.
  pose proof (computeDepth_loop p) as Hloop_p.
  unfold get_or_null in Hloop_i at 1. rewrite Hi in Hloop_i. simpl in Hloop_i.
  assert (exists fuel, size nodesById = S fuel) as [fuel Hsize].
  { apply elem_of_dom in Hp. destruct (size nodesById) eqn:E; [|eauto].
    rewrite <- size_dom in E. apply size_empty_inv in E. set_solver. }
  rewrite Hsize in Hloop_i. simpl in Hloop_i.
  rewrite !bool_decide_eq_true_2 in Hloop_i by (done || set_solver).
  simpl in Hloop_i.
  rewrite depthLoop_unreached in Hloop_i.
  - rewrite (depthLoop_shift fuel 0 1) in Hloop_i.
    destruct (depthLoop fuel mothers nodesById 0%nat (get_or_null mothers p) ∅)
      as [r|] eqn:Hr; [|done].
    simpl in Hloop_i. injection Hloop_i as <-.
    apply depthLoop_more with (fuel' := size nodesById) in Hr; [|lia].
    rewrite Hr in Hloop_p. injection Hloop_p as <-. lia.
  - intros c Hc. unfold get_or_null in Hc.
    destruct (mothers !! p) as [[m|]|] eqn:Hm; simpl in Hc; try done.
    injection Hc as ->. split.
    + intros ->. apply (Hacyclic p). by apply desc_child.
    + intros Hdesc. apply (Hacyclic p). by apply desc_step with c.
Qed.
End DepthFacts.

(** X13. [buildRenderTree] keeps the nodes and their order and gives
    each node its mother and edited mark; the depth it computes is at
    most the number of nodes of the scope, and it is zero for a node
    without a mother and for a node whose mother is outside the scope. *)
Theorem buildRenderTree_rows (nodes : list ClauseNodeDTO)
    (mothers : gmap Z (option Z)) (edited : gset Z) :
  node <$> buildRenderTree nodes mothers edited = nodes /\
  (forall row, row ∈ buildRenderTree nodes mothers edited ->
     mother row = get_or_null mothers (id (node row)) /\
     (isEdited row = true <-> id (node row) ∈ edited) /\
     (depth row <= size (indexNodes nodes))%nat /\
     (get_or_null mothers (id (node row)) = None -> depth row = 0%nat) /\
     (forall p, get_or_null mothers (id (node row)) = Some p ->
                indexNodes nodes !! p = None -> depth row = 0%nat)).
Proof.
  unfold buildRenderTree. split.
  - rewrite <- list_fmap_compose. apply list_fmap_id.
  - intros row Hrow. apply list_elem_of_fmap in Hrow as (n & -> & Hn). simpl.
    split; [done|]. split; [apply bool_decide_eq_true|].
    pose proof (computeDepth_loop mothers (indexNodes nodes) (id n)) as Hloop.
    split; [|split].
    + apply depthLoop_bound in Hloop.
      rewrite difference_empty_L, size_dom in Hloop. lia.
    + intros Hnone. rewrite Hnone in Hloop.
      destruct (size (indexNodes nodes)); simpl in Hloop; by injection Hloop.
    + intros p Hp Hout. rewrite Hp in Hloop.
      destruct (size (indexNodes nodes)); simpl in Hloop;
        rewrite Hout in Hloop; simpl in Hloop; by injection Hloop.
Qed.

(** X14. In a mothers map where no node is its own ancestor, a node
    whose mother is in the scope is drawn exactly one level deeper than
    its mother. *)
Theorem computeDepth_child (mothers : gmap Z (option Z))
    (nodesById : gmap Z ClauseNodeDTO) (i p : Z) :
  acyclic mothers ->
  mothers !! i = Some (Some p) ->
  is_Some (nodesById !! p) ->
  computeDepth mothers nodesById i = S (computeDepth mothers nodesById p).
Proof. apply computeDepth_step. Qed.

Lemma computeDepth_child_witness :
  acyclic Sample.baseMothers /\
  Sample.baseMothers !! 4 = Some (Some 2) /\
  is_Some (nodesById Sample.scope !! 2) /\
  computeDepth Sample.baseMothers (nodesById Sample.scope) 4 =
  S (computeDepth Sample.baseMothers (nodesById Sample.scope) 2).
Proof.
  assert (Sample.baseMothers !! 4 = Some (Some 2)) as H1 by reflexivity.
  assert (is_Some (nodesById Sample.scope !! 2)) as H2 by (vm_compute; eauto).
  split; [exact sample_forest|]. split; [exact H1|]. split; [exact H2|].
  exact (computeDepth_child Sample.baseMothers (nodesById Sample.scope) 4 2
           sample_forest H1 H2).
Defined.

(** ** More on the descendant set *)

(** X15. The set [collectDescendants] returns for a node holds each
    child of the node, holds nothing but nodes that have a mother in the
    map, and holds with a node all that is collected for that node. *)
Theorem collectDescendants_closure (mothers : gmap Z (option Z)) (root : Z) :
  (forall c, mothers !! c = Some (Some root) ->
     c ∈ collectDescendants root (buildChildrenMap mothers)) /\
  (forall d, d ∈ collectDescendants root (buildChildrenMap mothers) ->
     (exists p, mothers !! d = Some (Some p)) /\
     collectDescendants d (buildChildrenMap mothers) ⊆
       collectDescendants root (buildChildrenMap mothers)) /\
  (collectDescendants root (buildChildrenMap mothers) = ∅ <->
   forall c, mothers !! c <> Some (Some root)).
Proof.
  split; [|split].
  - intros c Hc. apply collectDescendants_spec. by apply desc_child.
  - intros d Hd. apply collectDescendants_spec in Hd. split.
    + destruct Hd; eauto.
    + intros x Hx. apply collectDescendants_spec in Hx.
      apply collectDescendants_spec. by apply Descendant_trans with d.
  - split.
    + intros Hempty c Hc.
      assert (c ∈ collectDescendants root (buildChildrenMap mothers)) as Hin
        by (apply collectDescendants_spec; by apply desc_child).
      rewrite Hempty in Hin. by apply not_elem_of_empty in Hin.
    + intros Hnone. apply set_eq. intros d. split; [|set_solver].
      intros Hd. apply collectDescendants_spec in Hd. exfalso.
      induction Hd as [d a Hd|d b a Hd Hb IH]; [by apply (Hnone d)|by apply IH].
Qed.

(** ** The selection memos *)

Section PickedNodes.
Variable nodesById : gmap Z ClauseNodeDTO.
Variable P : Z -> option Z -> Prop.
Context `{Pdec : !forall k v, Decision (P k v)}.
Variable f : Z -> option Z -> list ClauseNodeDTO -> list ClauseNodeDTO.
Hypothesis f_shape : forall k v acc,
  f k v acc =
  if decide (P k v) then
    match nodesById !! k with
    | Some n => acc ++ [n]
    | None => acc
    end
  else acc.

(** A [forEach] that pushes the node of every picked entry collects the
    nodes of the picked entries that are in the scope. *)
Lemma picked_nodes (mothers : gmap Z (option Z)) (n : ClauseNodeDTO) :
  n ∈ map_fold f [] mothers <->
  exists k v, mothers !! k = Some v /\ P k v /\ nodesById !! k = Some n.
Proof.
  revert n.
  apply (map_fold_weak_ind
           (fun (acc : list ClauseNodeDTO) (m : gmap Z (option Z)) =>
              forall n, n ∈ acc <->
                exists k v, m !! k = Some v /\ P k v /\ nodesById !! k = Some n)).
  - intros n. split.
    + intros Hin. by apply elem_of_nil in Hin.
    + intros (k & v & Hk & _). by rewrite lookup_empty in Hk.
  - intros i x m r Hfresh IH n.
    assert (n ∈ f i x r <-> n ∈ r \/ (P i x /\ nodesById !! i = Some n)) as ->.
    { rewrite f_shape. destruct (decide (P i x)) as [Hp|Hp].
      - destruct (nodesById !! i) as [n'|] eqn:Hn.
        + rewrite elem_of_app, list_elem_of_singleton.
          split; [intros [?| ->]; auto|intros [?|[_ [= ->]]]; auto].
        + split; [auto|intros [?|[_ ?]]; done].
      - split; [auto|intros [?|[? _]]; done]. }
    rewrite IH. split.
    + intros [(k & v & Hk & Hp & Hn)|[Hp Hn]].
      * exists k, v. split; [|done].
        rewrite lookup_insert_ne; [done|]. congruence.
      * exists i, x. by rewrite lookup_insert_eq.
    + intros (k & v & Hk & Hp & Hn).
      destruct (decide (i = k)) as [->|Hne].
      * rewrite lookup_insert_eq in Hk. injection Hk as ->. auto.
      * rewrite lookup_insert_ne in Hk by done. left. eauto.
Qed.
End PickedNodes.

(** X16. The current children shown for a selected node are the nodes
    of the scope whose mother is the selected node, in non-decreasing
    text order; without a selection there are none. *)
Theorem selectedChildren_spec (mothers : gmap Z (option Z))
    (nodesById : gmap Z ClauseNodeDTO) (selected : Z) :
  (forall n, n ∈ selectedChildren mothers nodesById (Some selected) <->
     exists c, mothers !! c = Some (Some selected) /\ nodesById !! c = Some n) /\
  StronglySorted slotOrder (selectedChildren mothers nodesById (Some selected)) /\
  selectedChildren mothers nodesById None = [].
Proof.
  split; [|split; [apply sortBySlot_sorted|done]].
  intros n. unfold selectedChildren. rewrite sortBySlot_perm.
  rewrite (picked_nodes nodesById (fun _ v => v = Some selected)
             (Pdec := fun _ v => decide (v = Some selected))) by done.
  split.
  - intros (k & v & Hk & -> & Hn). eauto.
  - intros (c & Hc & Hn). eauto.
Qed.

(** X17. The relations of a selected node: the highlighted parent is its
    mother in the map, the parent node is the node of the scope under
    that identity, and the siblings are the nodes of the scope that
    share the mother, the selected node left out, in text order; a node
    without a mother has no siblings.  Where the scope stores every node
    under its own identity, the selected node is never highlighted as
    its own sibling. *)
Theorem selectionRelations_spec (mothers : gmap Z (option Z))
    (nodesById : gmap Z ClauseNodeDTO) (selected : Z) :
  Selection.highlightParentId
    (selectionRelations mothers nodesById (Some selected)) =
    get_or_null mothers selected /\
  Selection.parent (selectionRelations mothers nodesById (Some selected)) =
    (p ← get_or_null mothers selected; nodesById !! p) /\
  (forall n,
      n ∈ Selection.siblings (selectionRelations mothers nodesById (Some selected)) <->
      exists p c, get_or_null mothers selected = Some p /\
                  mothers !! c = Some (Some p) /\ c <> selected /\
                  nodesById !! c = Some n) /\
  StronglySorted slotOrder
    (Selection.siblings (selectionRelations mothers nodesById (Some selected))) /\
  Selection.children (selectionRelations mothers nodesById (Some selected)) =
    selectedChildren mothers nodesById (Some selected) /\
  ((forall k n, nodesById !! k = Some n -> id n = k) ->
   selected ∉ Selection.highlightSiblingIds
                (selectionRelations mothers nodesById (Some selected))).
Proof.
  assert (forall n,
      n ∈ Selection.siblings (selectionRelations mothers nodesById (Some selected)) <->
      exists p c, get_or_null mothers selected = Some p /\
                  mothers !! c = Some (Some p) /\ c <> selected /\
                  nodesById !! c = Some n) as Hsiblings.
  { intros n. unfold selectionRelations. simpl.
    destruct (get_or_null mothers selected) as [p|].
    - rewrite sortBySlot_perm.
      rewrite (picked_nodes nodesById
                 (fun k v => v = Some p /\ k <> selected)
                 (Pdec := fun k v => decide (v = Some p /\ k <> selected)))
        by done.
      split.
      + intros (k & v & Hk & [-> Hne] & Hn). exists p, k. done.
      + intros (p' & c & [= <-] & Hc & Hne & Hn). exists c, (Some p). done.
    - split; [intros H; by apply elem_of_nil in H|].
      intros (p & c & ? & _). done. }
  split; [done|].
  split; [unfold selectionRelations; simpl;
          by destruct (get_or_null mothers selected)|].
  split; [exact Hsiblings|]. split.
  { unfold selectionRelations. simpl.
    destruct (get_or_null mothers selected); [apply sortBySlot_sorted|constructor]. }
  split; [done|].
  intros Hkeys Hin.
  change (Selection.highlightSiblingIds
            (selectionRelations mothers nodesById (Some selected)))
    with (id <$> Selection.siblings
                   (selectionRelations mothers nodesById (Some selected))) in Hin.
  apply list_elem_of_fmap in Hin as (n & Hid & Hn).
  apply Hsiblings in Hn as (p & c & _ & _ & Hne & Hc).
  apply Hkeys in Hc. congruence.
Qed.

(** ** Neighbours of the same text type *)

Section Neighbours.
Variable orderedNodes : list ClauseNodeDTO.
Variable t : option string.

Lemma previousLoop_spec (i : nat) :
  match previousLoop orderedNodes t i with
  | Some p =>
      exists j, (j < i)%nat /\ orderedNodes !! j = Some p /\ txt p = t /\
        forall k n, (j < k < i)%nat -> orderedNodes !! k = Some n -> txt n <> t
  | None =>
      forall k n, (k < i)%nat -> orderedNodes !! k = Some n -> txt n <> t
  end.
Proof.
  induction i as [|i IH]; simpl; [intros; lia|].
  destruct (orderedNodes !! i) as [candidate|] eqn:Hi.
  - destruct (decide (txt candidate = t)) as [Ht|Ht].
    + exists i. split; [lia|]. split; [done|]. split; [done|]. intros; lia.
    + destruct (previousLoop orderedNodes t i) as [p|].
      * destruct IH as (j & Hj & Hp & Htp & Hbetween).
        exists j. split; [lia|]. split; [done|]. split; [done|].
        intros k n Hk Hn. destruct (decide (k = i)) as [->|]; [congruence|].
        apply (Hbetween k); [lia|done].
      * intros k n Hk Hn. destruct (decide (k = i)) as [->|]; [congruence|].
        apply (IH k); [lia|done].
  - destruct (previousLoop orderedNodes t i) as [p|].
    + destruct IH as (j & Hj & Hp & Htp & Hbetween).
      exists j. split; [lia|]. split; [done|]. split; [done|].
      intros k n Hk Hn. destruct (decide (k = i)) as [->|]; [congruence|].
      apply (Hbetween k); [lia|done].
    + intros k n Hk Hn. destruct (decide (k = i)) as [->|]; [congruence|].
      apply (IH k); [lia|done].
Qed.

Lemma nextLoop_spec (left i : nat) :
  match nextLoop orderedNodes t left i with
  | Some p =>
      exists j, (i <= j)%nat /\ orderedNodes !! j = Some p /\ txt p = t /\
        forall k n, (i <= k < j)%nat -> orderedNodes !! k = Some n -> txt n <> t
  | None =>
      forall k n, (i <= k < i + left)%nat -> orderedNodes !! k = Some n ->
                  txt n <> t
  end.
Proof.
  revert i. induction left as [|left IH]; intros i; simpl; [intros; lia|].
  destruct (orderedNodes !! i) as [candidate|] eqn:Hi.
  - destruct (decide (txt candidate = t)) as [Ht|Ht].
    + exists i. split; [lia|]. split; [done|]. split; [done|]. intros; lia.
    + specialize (IH (S i)).
      destruct (nextLoop orderedNodes t left (S i)) as [p|].
      * destruct IH as (j & Hj & Hp & Htp & Hbetween).
        exists j. split; [lia|]. split; [done|]. split; [done|].
        intros k n Hk Hn. destruct (decide (k = i)) as [->|]; [congruence|].
        apply (Hbetween k); [lia|done].
      * intros k n Hk Hn. destruct (decide (k = i)) as [->|]; [congruence|].
        apply (IH k); [lia|done].
  - intros k n Hk Hn.
    apply lookup_ge_None in Hi.
    assert (orderedNodes !! k = None) as Hnone by (apply lookup_ge_None; lia).
    congruence.
Qed.
End Neighbours.

Lemma findIndex_spec {A} (p : A -> bool) (l : list A) :
  match findIndex p l with
  | Some i => exists x, l !! i = Some x /\ p x = true /\
                        forall k y, (k < i)%nat -> l !! k = Some y -> p y = false
  | None => forall y, y ∈ l -> p y = false
  end.
Proof.
  induction l as [|x l IH]; simpl.
  - intros y Hy. by apply elem_of_nil in Hy.
  - destruct (p x) eqn:Hx.
    + exists x. split; [done|]. split; [done|]. intros; lia.
    + destruct (findIndex p l) as [i|]; simpl.
      * destruct IH as (y & Hy & Hpy & Hbefore).
        exists y. split; [done|]. split; [done|].
        intros k z Hk Hz. destruct k as [|k]; simpl in Hz.
        -- by injection Hz as <-.
        -- apply (Hbefore k); [lia|done].
      * intros y Hy. apply elem_of_cons in Hy as [->|Hy]; auto.
Qed.

(** X18. For a selected node found in the ordered list at place [index]
    (the first place with its identity), [sameTxtNeighbors] gives as
    previous the nearest node before that place with the same text type
    and as next the nearest node after it with the same text type, and
    gives none exactly when no node on that side has the text type. *)
Theorem sameTxtNeighbors_nearest (orderedNodes : list ClauseNodeDTO)
    (selected : ClauseNodeDTO) (index : nat) :
  findIndex (fun n => bool_decide (id n = id selected)) orderedNodes = Some index ->
  match Neighbors.previous (sameTxtNeighbors orderedNodes (Some selected)) with
  | Some p =>
      exists j, (j < index)%nat /\ orderedNodes !! j = Some p /\
        txt p = txt selected /\
        forall k n, (j < k < index)%nat -> orderedNodes !! k = Some n ->
                    txt n <> txt selected
  | None =>
      forall k n, (k < index)%nat -> orderedNodes !! k = Some n ->
                  txt n <> txt selected
  end /\
  match Neighbors.next (sameTxtNeighbors orderedNodes (Some selected)) with
  | Some p =>
      exists j, (index < j)%nat /\ orderedNodes !! j = Some p /\
        txt p = txt selected /\
        forall k n, (index < k < j)%nat -> orderedNodes !! k = Some n ->
                    txt n <> txt selected
  | None =>
      forall k n, (index < k)%nat -> orderedNodes !! k = Some n ->
                  txt n <> txt selected
  end.
Proof.
  intros Hindex. unfold sameTxtNeighbors. rewrite Hindex. simpl. split.
  - apply previousLoop_spec.
  - pose proof (nextLoop_spec orderedNodes (txt selected)
                  (length orderedNodes - S index) (S index)) as Hnext.
    destruct (nextLoop _ _ _ _) as [p|].
    + destruct Hnext as (j & Hj & Hp & Ht & Hbetween).
      exists j. split; [lia|]. split; [done|]. split; [done|].
      intros k n Hk. apply Hbetween. lia.
    + intros k n Hk Hn. apply (Hnext k n); [|done].
      apply lookup_lt_Some in Hn. lia.
Qed.

Lemma sameTxtNeighbors_nearest_witness :
  let narrative (i : Z) (kind : option string) :=
    {| id := i; slotsStart := i; slotsEnd := i; slotCount := 1; label := "";
       containerId := "Genesis.1.1"; inScope := true; kind := "clause";
       draggable := true; typ := None; rela := None; code := None;
       txt := kind; domain := None; instruction := None;
       originalMother := None; coreFunctions := []; children := [];
       reference := "" |} in
  let ordered := [narrative 1 (Some "N"); narrative 2 (Some "Q");
                  narrative 3 (Some "N"); narrative 4 (Some "Q");
                  narrative 5 (Some "N")] in
  let selected := narrative 3 (Some "N") in
  findIndex (fun n => bool_decide (id n = id selected)) ordered = Some 2%nat /\
  Neighbors.previous (sameTxtNeighbors ordered (Some selected)) =
    Some (narrative 1 (Some "N")) /\
  Neighbors.next (sameTxtNeighbors ordered (Some selected)) =
    Some (narrative 5 (Some "N")) /\
  (match Neighbors.previous (sameTxtNeighbors ordered (Some selected)) with
   | Some p =>
       exists j, (j < 2)%nat /\ ordered !! j = Some p /\
         txt p = txt selected /\
         forall k n, (j < k < 2)%nat -> ordered !! k = Some n ->
                     txt n <> txt selected
   | None =>
       forall k n, (k < 2)%nat -> ordered !! k = Some n ->
                   txt n <> txt selected
   end /\
   match Neighbors.next (sameTxtNeighbors ordered (Some selected)) with
   | Some p =>
       exists j, (2 < j)%nat /\ ordered !! j = Some p /\
         txt p = txt selected /\
         forall k n, (2 < k < j)%nat -> ordered !! k = Some n ->
                     txt n <> txt selected
   | None =>
       forall k n, (2 < k)%nat -> ordered !! k = Some n ->
                   txt n <> txt selected
   end).
Proof.
  intros narrative ordered selected.
  assert (findIndex (fun n => bool_decide (id n = id selected)) ordered =
          Some 2%nat) as H by reflexivity.
  split; [exact H|]. split; [reflexivity|]. split; [reflexivity|].
  exact (sameTxtNeighbors_nearest ordered selected 2 H).
Defined.

(** ** Annotations and checklists *)

(** X19. The annotation of the selected node: what was typed is what is
    shown; clearing shows the empty text; the annotation shown for any
    other node is not affected by either; and without a selection both
    leave the annotations alone. *)
Theorem annotations_round_trip (annotations : gmap Z string)
    (selected other : Z) (value : string) :
  annotationValue (Some selected)
    (handleAnnotationChange (Some selected) value annotations) = value /\
  annotationValue (Some selected)
    (clearAnnotation (Some selected) annotations) = "" /\
  (other <> selected ->
   annotationValue (Some other)
     (handleAnnotationChange (Some selected) value annotations) =
     annotationValue (Some other) annotations /\
   annotationValue (Some other) (clearAnnotation (Some selected) annotations) =
     annotationValue (Some other) annotations) /\
  handleAnnotationChange None value annotations = annotations /\
  clearAnnotation None annotations = annotations.
Proof.
  unfold annotationValue, handleAnnotationChange, clearAnnotation.
  split; [by rewrite lookup_insert_eq|].
  split; [by rewrite lookup_delete_eq|].
  split; [|done]. intros Hne.
  by rewrite lookup_insert_ne, lookup_delete_ne.
Qed.



(** ** Shutdown *)

Section ShutdownFacts.
Variable server : list Request -> Request -> Completion Response.
Variable JSON_parse : string -> Completion JsValue.
Variable json_as_reply : string -> Completion ShutdownReply.

Lemma shutdown_effect (h : World) :
  exists c,
    shutdown JSON_parse (fetch server) json_as_reply h =
    (c, {| tree := tree h; sent := sent h ++ [PostShutdown]; timers := timers h |}).
Proof.
  unfold shutdown. unfold bind at 1. unfold fetch at 1.
  destruct (server (sent h) PostShutdown) as [res|e]; [|eauto].
  unfold bind. destruct (ok res) eqn:Hok.
  - unfold handleResponse. rewrite Hok. unfold liftCompletion.
    destruct (json_as_reply (body res)); simpl; eauto.
  - rewrite handleResponse_not_ok by done. eauto.
Qed.

(** [handleShutdown] when no shutdown is requested yet, by the
    completion of the call. *)
Lemma handleShutdown_fresh (w : ShutdownWorld) :
  shutdownRequested w = false ->
  handleShutdown server JSON_parse json_as_reply w =
  match shutdown JSON_parse (fetch server) json_as_reply (shutdownHook w) with
  | (Return _, h) =>
      (Return tt,
       {| shutdownHook := h; shutdownRequested := true;
          shutdownNotice :=
            Some "서버 종료 요청이 완료되었습니다. 터미널에서 종료를 확인한 뒤 창을 닫아 주세요." |})
  | (Throw err, h) =>
      (Return tt,
       {| shutdownHook :=
            updateTree (setError (Some (messageOr "종료 요청에 실패했습니다." err))) h;
          shutdownRequested := false;
          shutdownNotice := None |})
  end.
Proof.
  intros Hreq. unfold handleShutdown. unfold bind at 1. unfold gets at 1.
  rewrite Hreq.
  unfold bind, setShutdownRequested, setShutdownNotice, modify, tryCatch,
    liftShutdown. simpl.
  destruct (shutdown _ _ _ _) as [[[]|[cls message|v]] h]; reflexivity.
Qed.
End ShutdownFacts.

(** X21. [handleShutdown] never throws.  While a shutdown is requested a
    further call does nothing at all; otherwise it sends exactly one
    shutdown request and leaves node list, mothers map and edited set
    alone, and it ends either requested with a notice shown, so that no
    later call sends again, or not requested, without notice and with an
    error message reported. *)
Theorem handleShutdown_once
    (server : list Request -> Request -> Completion Response)
    (JSON_parse : string -> Completion JsValue)
    (json_as_reply : string -> Completion ShutdownReply)
    (w : ShutdownWorld) :
  (shutdownRequested w = true ->
   handleShutdown server JSON_parse json_as_reply w = (Return tt, w)) /\
  (shutdownRequested w = false ->
   (handleShutdown server JSON_parse json_as_reply w).1 = Return tt /\
   sent (shutdownHook (handleShutdown server JSON_parse json_as_reply w).2) =
     sent (shutdownHook w) ++ [PostShutdown] /\
   nodes (tree (shutdownHook (handleShutdown server JSON_parse json_as_reply w).2)) =
     nodes (tree (shutdownHook w)) /\
   mothers (tree (shutdownHook (handleShutdown server JSON_parse json_as_reply w).2)) =
     mothers (tree (shutdownHook w)) /\
   edited (tree (shutdownHook (handleShutdown server JSON_parse json_as_reply w).2)) =
     edited (tree (shutdownHook w)) /\
   ((shutdownRequested (handleShutdown server JSON_parse json_as_reply w).2 = true /\
     is_Some (shutdownNotice (handleShutdown server JSON_parse json_as_reply w).2)) \/
    (shutdownRequested (handleShutdown server JSON_parse json_as_reply w).2 = false /\
     shutdownNotice (handleShutdown server JSON_parse json_as_reply w).2 = None /\
     is_Some (error (tree (shutdownHook
                (handleShutdown server JSON_parse json_as_reply w).2)))))).
Proof.
  split; intros Hreq.
  - unfold handleShutdown. unfold bind at 1. unfold gets at 1. by rewrite Hreq.
  - rewrite handleShutdown_fresh by done.
    destruct (shutdown_effect server JSON_parse json_as_reply (shutdownHook w))
      as [c ->].
    destruct c as [[]|err]; simpl; (do 5 (split; [done|])); [left|right]; eauto.
Qed.

Lemma handleShutdown_once_witness :
  let w := {| shutdownHook := Sample.world; shutdownRequested := false;
              shutdownNotice := None |} in
  let after :=
    (handleShutdown Sample.refusing Sample.noJson
       (fun _ => Throw (ErrorObject SyntaxError "Unexpected token")) w).2 in
  shutdownRequested w = false /\
  sent (shutdownHook after) = [PostShutdown] /\
  shutdownRequested after = false /\
  error (tree (shutdownHook after)) = Some "CycleDetected".
Proof.
  intros w after.
  destruct (handleShutdown_once Sample.refusing Sample.noJson
              (fun _ => Throw (ErrorObject SyntaxError "Unexpected token")) w)
    as [_ Hfresh].
  destruct (Hfresh eq_refl) as (_ & Hsent & _).
  split; [reflexivity|]. split; [exact Hsent|]. split; reflexivity.
Defined.

(** ** The start of a drag *)

(** X22. [handleDragStart] sends nothing and changes neither node list,
    mothers map nor edited set.  For an identifier that is not a drag
    handle it changes nothing at all; for the handle of node [n] it makes
    [n] the active drag and the selection, sets the drop targets to those
    computed for [n] on the current mirror, and clears the error.
    [handleDragCancel] ends the drag and touches nothing else. *)
Theorem handleDragStart_effect (event : DragEvent) (w : AppWorld) :
  (handleDragStart event w).1 = Return tt /\
  sent (hook (handleDragStart event w).2) = sent (hook w) /\
  nodes (tree (hook (handleDragStart event w).2)) = nodes (tree (hook w)) /\
  mothers (tree (hook (handleDragStart event w).2)) = mothers (tree (hook w)) /\
  edited (tree (hook (handleDragStart event w).2)) = edited (tree (hook w)) /\
  (parseDragId (active event) = None -> (handleDragStart event w).2 = w) /\
  (forall n, parseDragId (active event) = Some n ->
     activeDragId (app (handleDragStart event w).2) = Some n /\
     selectedNodeId (app (handleDragStart event w).2) = Some n /\
     dropTargets (app (handleDragStart event w).2) =
       Some (computeDropTargets (tree (hook w)) n) /\
     error (tree (hook (handleDragStart event w).2)) = None) /\
  (handleDragCancel w).2 =
    {| hook := hook w;
       app := {| activeDragId := None; dropTargets := None;
                 pendingAction := pendingAction (app w);
                 selectedNodeId := selectedNodeId (app w) |} |}.
Proof.
  unfold handleDragStart.
  destruct (parseDragId (active event)) as [n|]; simpl.
  - do 5 (split; [done|]). split; [done|]. split; [|done].
    intros n' [= <-]. done.
  - do 5 (split; [done|]). split; [done|]. split; [done|]. done.
Qed.

(** ** What the hook keeps true *)

Lemma refresh_tree
    (server : list Request -> Request -> Completion Response)
    (JSON_parse : string -> Completion JsValue)
    (json_as_tree : string -> Completion TreeResponse.TreeResponseDTO)
    (scope : option string) (w : World) :
  (exists data,
      nodes (tree (refresh server JSON_parse json_as_tree scope w).2) =
        sortBySlot (TreeResponse.nodes data) /\
      mothers (tree (refresh server JSON_parse json_as_tree scope w).2) =
        buildEdgeMap (TreeResponse.edges data) /\
      edited (tree (refresh server JSON_parse json_as_tree scope w).2) =
        userEdited (TreeResponse.edges data)) \/
  (nodes (tree (refresh server JSON_parse json_as_tree scope w).2) = nodes (tree w) /\
   mothers (tree (refresh server JSON_parse json_as_tree scope w).2) = mothers (tree w) /\
   edited (tree (refresh server JSON_parse json_as_tree scope w).2) = edited (tree w)).
Proof.
  unfold refresh, fetchTree, bind, tryFinally, tryCatch, modify.
  unfold fetch at 1. simpl.
  destruct (server _ _) as [res|e]; simpl; [|by right].
  destruct (ok res) eqn:Hok.
  - unfold handleResponse. rewrite Hok. unfold liftCompletion.
    destruct (json_as_tree (body res)) as [data|e]; simpl; [|by right].
    left. by exists data.
  - rewrite handleResponse_not_ok by done. by right.
Qed.

(** X23. The hook keeps its mirror well formed.  Before the first
    refresh, and after every refresh and every mutation made through
    [handleMutation] with a call of [api.ts], whatever their outcome, the
    node list is in non-decreasing text order and every node marked as
    edited has an entry in the mothers map. *)
Theorem hook_keeps_mirror_well_formed :
  mirrorInvariant initialTree /\
  (forall server JSON_parse json_as_tree scope (w : World),
      mirrorInvariant (tree w) ->
      mirrorInvariant (tree (refresh server JSON_parse json_as_tree scope w).2)) /\
  (forall (mutator : M World EdgeDTO) (w : World),
      callOnly mutator ->
      mirrorInvariant (tree w) ->
      mirrorInvariant (tree (handleMutation mutator w).2)).
Proof.
  split; [|split].
  - split; [constructor|done].
  - intros server JSON_parse json_as_tree scope w [Hsorted Hedited].
    unfold mirrorInvariant.
    destruct (refresh_tree server JSON_parse json_as_tree scope w)
      as [(data & -> & -> & ->)|(-> & -> & ->)]; [|done].
    split; [apply sortBySlot_sorted|].
    intros x Hx. apply userEdited_spec in Hx as (e & He & <- & _).
    apply elem_of_dom. unfold buildEdgeMap.
    rewrite (foldl_insert_lookup from to). apply fmap_is_Some, last_is_Some.
    intros E. by apply (filter_nil_not_elem_of _ _ e E).
  - intros mutator w Hcall [Hsorted Hedited]. rewrite handleMutation_unfold.
    specialize (Hcall (updateTree (setMutating true) w)).
    unfold mirrorInvariant.
    destruct (mutator _) as [[edge|err] w1]; simpl in *; rewrite Hcall; simpl;
      (split; [done|]); [|done].
    rewrite dom_insert_L. destruct (source edge); set_solver.
Qed.

(** ** Drop zones against the drop handler *)

(** X24. During a drag of node [n] begun by [handleDragStart], the drop
    zones the tree view enables are the ones [handleDrop] acts on: a
    drop on an enabled row [m] sends exactly the reparent of [n] onto
    [m], a drop on a disabled row sends nothing, and the row of [n]
    itself is disabled; a drop on the root zone sends the rootify of
    [n] when the zone is enabled and nothing when it is disabled. *)
Theorem drop_zones_match_handler
    (server : list Request -> Request -> Completion Response)
    (JSON_parse : string -> Completion JsValue)
    (json_as_edge : string -> Completion EdgeEnvelope)
    (w : AppWorld) (n m : Z) :
  let dragged :=
    (handleDragStart {| active := draggableId n; over := None |} w).2 in
  let drop (zone : UniqueIdentifier) :=
    (handleDrop server JSON_parse json_as_edge
       {| active := draggableId n; over := Some zone |} dragged).2 in
  TreeView.rowDropDisabled (dropTargets (app dragged)) n = true /\
  (TreeView.rowDropDisabled (dropTargets (app dragged)) m = false ->
   sent (hook (drop (droppableId m))) = sent (hook w) ++ [PostReparent n m]) /\
  (TreeView.rowDropDisabled (dropTargets (app dragged)) m = true ->
   sent (hook (drop (droppableId m))) = sent (hook w)) /\
  (TreeView.rootDropDisabled (dropTargets (app dragged)) = false ->
   sent (hook (drop rootDropId)) = sent (hook w) ++ [PostRootify n]) /\
  (TreeView.rootDropDisabled (dropTargets (app dragged)) = true ->
   sent (hook (drop rootDropId)) = sent (hook w)).
Proof.
  intros dragged drop.
  destruct (handleDragStart_targets w n) as (Htargets & _ & Hsent).
  fold dragged in Htargets, Hsent.
  set (targets := computeDropTargets (tree (hook w)) n) in *.
  assert (n ∉ nodeTargets targets) as Hself.
  { apply nodeTargets_not_forbidden, elem_of_union. left.
    by apply elem_of_singleton. }
  assert (forall zone,
             sent (hook (drop zone)) =
             sent (hook (dropOnto server JSON_parse json_as_edge n zone targets
                           dragged).2)) as Hdrop.
  { intros zone. unfold drop.
    rewrite (handleDrop_dragging server JSON_parse json_as_edge _ dragged
               n zone targets);
      [|apply parseDragId_draggableId|done|done].
    destruct (dropOnto _ _ _ _ _ _ dragged) as [[|[]] w1]; done. }
  assert (forall req,
             sent (hook (liftHook
                           (handleMutation
                              (let! res := fetch server req in
                               let! data := handleResponse JSON_parse json_as_edge res in
                               ret (edge data)))
                           {| hook := hook dragged;
                              app := {| activeDragId := activeDragId (app dragged);
                                        dropTargets := dropTargets (app dragged);
                                        pendingAction := match req with
                                                         | PostRootify _ => Some "rootify"
                                                         | _ => Some "reparent"
                                                         end;
                                        selectedNodeId := selectedNodeId (app dragged) |} |}).2) =
             sent (hook w) ++ [req]) as Hrequest.
  { intros req. unfold liftHook. simpl.
    pose proof (hook_request_sent server JSON_parse json_as_edge req (hook dragged))
      as Hreq.
    destruct (handleMutation _ _) as [c h]. simpl in *. by rewrite Hreq, Hsent. }
  unfold TreeView.rowDropDisabled, TreeView.rootDropDisabled, TreeView.isValidTarget.
  rewrite Htargets. simpl.
  split; [by rewrite bool_decide_eq_false_2|].
  split; [|split; [|split]].
  - intros Hon. apply negb_false_iff, bool_decide_eq_true in Hon.
    rewrite Hdrop. unfold dropOnto.
    rewrite (decide_False (P := droppableId m = rootDropId))
      by apply droppableId_not_root.
    rewrite parseDropId_droppableId.
    rewrite decide_False by (intros ->; done).
    rewrite bool_decide_eq_true_2 by done. simpl.
    apply (Hrequest (PostReparent n m)).
  - intros Hoff. apply negb_true_iff, bool_decide_eq_false in Hoff.
    rewrite Hdrop. unfold dropOnto.
    rewrite (decide_False (P := droppableId m = rootDropId))
      by apply droppableId_not_root.
    rewrite parseDropId_droppableId.
    destruct (decide (m = n)); [done|].
    rewrite bool_decide_eq_false_2 by done. simpl. done.
  - intros Hon. apply negb_false_iff in Hon.
    rewrite Hdrop. unfold dropOnto. rewrite decide_True by done.
    rewrite Hon. simpl. apply (Hrequest (PostRootify n)).
  - intros Hoff. apply negb_true_iff in Hoff.
    rewrite Hdrop. unfold dropOnto. rewrite decide_True by done.
    rewrite Hoff. simpl. done.
Qed.

(** ** A drop from end to end *)

Section DropOnTarget.
Variable server : list Request -> Request -> Completion Response.
Variable JSON_parse : string -> Completion JsValue.
Variable json_as_edge : string -> Completion EdgeEnvelope.

(** A drop of [n] on the zone of one of the targets: the reparent runs
    in the hook, and an error it throws is reported once more. *)
Lemma handleDrop_on_target (w : AppWorld) (n m : Z) (targets : DropTargets) :
  dropTargets (app w) = Some targets ->
  m ∈ nodeTargets targets -> m <> n ->
  handleDrop server JSON_parse json_as_edge
    {| active := draggableId n; over := Some (droppableId m) |} w =
  match reparentNode server JSON_parse json_as_edge n m (hook w) with
  | (c, h) =>
      (Return tt,
       {| hook := match c with
                  | Throw (ErrorObject _ message) =>
                      updateTree (setError (Some message)) h
                  | _ => h
                  end;
          app := {| activeDragId := None; dropTargets := None;
                    pendingAction := None;
                    selectedNodeId := selectedNodeId (app w) |} |})
  end.
Proof.
  intros Htargets Hin Hne.
  rewrite (handleDrop_dragging server JSON_parse json_as_edge _ w n
             (droppableId m) targets);
    [|apply parseDragId_draggableId|done|done].
  unfold dropOnto.
  rewrite (decide_False (P := droppableId m = rootDropId))
    by apply droppableId_not_root.
  rewrite parseDropId_droppableId. rewrite decide_False by done.
  rewrite bool_decide_eq_true_2 by done. simpl.
  unfold bind, setPendingAction, updateApp, modify, liftHook. simpl.
  destruct (reparentNode _ _ _ _ _ _) as [c h]. done.
Qed.
End DropOnTarget.

(** X25. A drop the backend refuses.  When node [n] is dropped on the
    zone of an offered target [m] and the backend answers the reparent
    with a response that is not ok, [handleDrop] completes normally, the
    error shown is the body of the response ("Request failed" for an
    empty body), the mothers map, the edited set and the node list stay
    as they were, and the drag is over. *)
Theorem drop_refused
    (server : list Request -> Request -> Completion Response)
    (JSON_parse : string -> Completion JsValue)
    (json_as_edge : string -> Completion EdgeEnvelope)
    (w : AppWorld) (n m : Z) (targets : DropTargets) (res : Response) :
  dropTargets (app w) = Some targets ->
  m ∈ nodeTargets targets -> m <> n ->
  server (sent (hook w)) (PostReparent n m) = Return res ->
  ok res = false ->
  exists w',
    handleDrop server JSON_parse json_as_edge
      {| active := draggableId n; over := Some (droppableId m) |} w =
    (Return tt, w') /\
    error (tree (hook w')) = Some (orElse (body res) "Request failed") /\
    mothers (tree (hook w')) = mothers (tree (hook w)) /\
    edited (tree (hook w')) = edited (tree (hook w)) /\
    nodes (tree (hook w')) = nodes (tree (hook w)) /\
    sent (hook w') = sent (hook w) ++ [PostReparent n m] /\
    activeDragId (app w') = None /\ dropTargets (app w') = None.
Proof.
  intros Htargets Hin Hne Hres Hok.
  rewrite (handleDrop_on_target server JSON_parse json_as_edge w n m targets)
    by done.
  unfold reparentNode, reparent. rewrite handleMutation_unfold.
  destruct (request_not_ok server JSON_parse json_as_edge (PostReparent n m)
              (updateTree (setMutating true) (hook w)) res Hres Hok)
    as [err Herr].
  pose proof Herr as Herr'.
  unfold bind at 1 in Herr'. unfold fetch at 1 in Herr'. simpl in Herr'.
  rewrite Hres in Herr'. unfold bind in Herr'.
  rewrite handleResponse_not_ok in Herr' by done.
  injection Herr' as <-.
  rewrite Herr. eexists. split; [reflexivity|]. simpl. done.
Qed.

Lemma drop_refused_witness :
  let w := (handleDragStart {| active := draggableId 3; over := None |}
              {| hook := Sample.world; app := Sample.idle |}).2 in
  let res := {| ok := false; body := "CycleDetected" |} in
  1 ∈ nodeTargets (computeDropTargets Sample.scope 3) /\
  Sample.refusing (sent (hook w)) (PostReparent 3 1) = Return res /\
  exists w',
    handleDrop Sample.refusing Sample.noJson Sample.noEdge
      {| active := draggableId 3; over := Some (droppableId 1) |} w =
    (Return tt, w') /\
    error (tree (hook w')) = Some (orElse (body res) "Request failed") /\
    mothers (tree (hook w')) = mothers (tree (hook w)) /\
    edited (tree (hook w')) = edited (tree (hook w)) /\
    nodes (tree (hook w')) = nodes (tree (hook w)) /\
    sent (hook w') = sent (hook w) ++ [PostReparent 3 1] /\
    activeDragId (app w') = None /\ dropTargets (app w') = None.
Proof.
  intros w res.
  assert (1 ∈ nodeTargets (computeDropTargets Sample.scope 3)) as H
    by by_evaluation.
  split; [exact H|]. split; [reflexivity|].
  apply (drop_refused Sample.refusing Sample.noJson Sample.noEdge w 3 1
           (computeDropTargets Sample.scope 3) res).
  - vm_compute. reflexivity.
  - exact H.
  - discriminate.
  - reflexivity.
  - reflexivity.
Defined.

(** X26. A drop the backend accepts.  When node [n] is dropped on the
    zone of an offered target [m] and the backend answers the reparent
    with an ok response that holds an edge, [handleDrop] completes
    normally, the mirror is the old one with that edge applied, no error
    is shown, and the drag is over. *)
Theorem drop_accepted
    (server : list Request -> Request -> Completion Response)
    (JSON_parse : string -> Completion JsValue)
    (json_as_edge : string -> Completion EdgeEnvelope)
    (w : AppWorld) (n m : Z) (targets : DropTargets) (res : Response)
    (answer : EdgeEnvelope) :
  dropTargets (app w) = Some targets ->
  m ∈ nodeTargets targets -> m <> n ->
  server (sent (hook w)) (PostReparent n m) = Return res ->
  ok res = true ->
  json_as_edge (body res) = Return answer ->
  exists w',
    handleDrop server JSON_parse json_as_edge
      {| active := draggableId n; over := Some (droppableId m) |} w =
    (Return tt, w') /\
    error (tree (hook w')) = None /\
    mothers (tree (hook w')) =
      <[from (edge answer) := to (edge answer)]> (mothers (tree (hook w))) /\
    edited (tree (hook w')) = edited (applyEdgeUpdate (edge answer) (tree (hook w))) /\
    nodes (tree (hook w')) = nodes (tree (hook w)) /\
    sent (hook w') = sent (hook w) ++ [PostReparent n m] /\
    activeDragId (app w') = None /\ dropTargets (app w') = None.
Proof.
  intros Htargets Hin Hne Hres Hok Hanswer.
  rewrite (handleDrop_on_target server JSON_parse json_as_edge w n m targets)
    by done.
  unfold reparentNode, reparent. rewrite handleMutation_unfold.
  unfold bind at 1. unfold fetch at 1. simpl. rewrite Hres.
  unfold bind, handleResponse. rewrite Hok. unfold liftCompletion.
  rewrite Hanswer. simpl. eexists. split; [reflexivity|]. simpl. done.
Qed.

Lemma drop_accepted_witness :
  let w := (handleDragStart {| active := draggableId 3; over := None |}
              {| hook := Sample.world; app := Sample.idle |}).2 in
  let answer := {| edge := {| from := 3; to := Some 2; source := user |} |} in
  2 ∈ nodeTargets (computeDropTargets Sample.scope 3) /\
  exists w',
    handleDrop Sample.serving Sample.noJson (fun _ => Return answer)
      {| active := draggableId 3; over := Some (droppableId 2) |} w =
    (Return tt, w') /\
    error (tree (hook w')) = None /\
    mothers (tree (hook w')) =
      <[from (edge answer) := to (edge answer)]> (mothers (tree (hook w))) /\
    edited (tree (hook w')) = edited (applyEdgeUpdate (edge answer) (tree (hook w))) /\
    nodes (tree (hook w')) = nodes (tree (hook w)) /\
    sent (hook w') = sent (hook w) ++ [PostReparent 3 2] /\
    activeDragId (app w') = None /\ dropTargets (app w') = None.
Proof.
  intros w answer.
  assert (2 ∈ nodeTargets (computeDropTargets Sample.scope 3)) as H
    by by_evaluation.
  split; [exact H|].
  apply (drop_accepted Sample.serving Sample.noJson (fun _ => Return answer)
           w 3 2 (computeDropTargets Sample.scope 3)
           {| ok := true; body := "tree" |} answer).
  - vm_compute. reflexivity.
  - exact H.
  - discriminate.
  - reflexivity.
  - reflexivity.
  - reflexivity.
Defined.
